(** * FANUC program analyzer: a shallow embedding and its properties

    The development follows the two source files:
    - [src/fanuc_analyzer.py]: [FANUCProgram], [FANUCParser], [FANUCAnalyzer];
    - [src/fanuc_flow_analyzer.py]: [FlowNode], [FANUCFlowAnalyzer].

    Text is a [string] of 8-bit characters: the sources read every file with
    the latin-1 codec, so each byte of a file is one character of the text.
    Integers produced by [int] are unbounded, as in Python (the interpreter's
    configurable limit on the number of digits is not part of the sources). *)

From Stdlib Require Import Ascii NArith Lia.
From Stdlib Require String.
From stdpp Require Import gmap strings list fin_maps fin_sets sorting.

Set Warnings "-clear-no-such-hyp".

(** ** Python [str] operations used by the sources *)

Module PyStr.

Definition code (c : ascii) : N := N_of_ascii c.

Definition in_range (lo hi : N) (c : ascii) : bool :=
  ((lo <=? code c) && (code c <=? hi))%N.

(** [\d] on latin-1 text: the ten ASCII digits. *)
Definition is_digit (c : ascii) : bool := in_range 48 57 c.

(** [\s] and [str.isspace] on latin-1 text. *)
Definition is_space (c : ascii) : bool :=
  in_range 9 13 c || in_range 28 32 c || in_range 133 133 c || in_range 160 160 c.

(** [\w] on latin-1 text: alphanumeric characters and the underscore. *)
Definition is_word (c : ascii) : bool :=
  in_range 48 57 c || in_range 65 90 c || in_range 95 95 c || in_range 97 122 c
  || in_range 170 170 c || in_range 178 179 c || in_range 181 181 c
  || in_range 185 186 c || in_range 188 190 c || in_range 192 214 c
  || in_range 216 246 c || in_range 248 255 c.

Definition newline : ascii := ascii_of_N 10.
Definition carriage_return : ascii := ascii_of_N 13.

Fixpoint lstrip (s : string) : string :=
  match s with
  | String c s' => if is_space c then lstrip s' else s
  | EmptyString => EmptyString
  end.

Fixpoint rstrip (s : string) : string :=
  match s with
  | EmptyString => EmptyString
  | String c s' =>
      match rstrip s' with
      | EmptyString => if is_space c then EmptyString else String c EmptyString
      | r => String c r
      end
  end.

(** [s.strip()] *)
Definition strip (s : string) : string := rstrip (lstrip s).

(** [s.split('\n')] *)
Fixpoint split_lines (s : string) : list string :=
  match s with
  | EmptyString => [EmptyString]
  | String c s' =>
      if Ascii.eqb c newline then EmptyString :: split_lines s'
      else match split_lines s' with
           | h :: t => String c h :: t
           | [] => [String c EmptyString]
           end
  end.

(** [s.startswith(p)] *)
Definition startswith (p s : string) : bool := String.prefix p s.

(** [needle in s] *)
Fixpoint contains (needle s : string) : bool :=
  String.prefix needle s
  || match s with
     | String _ s' => contains needle s'
     | EmptyString => false
     end.

(** [s.upper()], character by character.  Within latin-1 the lower-case
    letters a-z and 0xE0-0xFE (0xF7 apart) have their capital 32 places
    below.  The three characters whose capital is not one latin-1
    character (0xB5, 0xDF, 0xFF) are left as they are: none of them
    produces a letter of the ASCII markers searched for in upper-cased
    text. *)
Definition upper_char (c : ascii) : ascii :=
  if in_range 97 122 c || (in_range 224 254 c && negb (in_range 247 247 c))
  then ascii_of_N (code c - 32)
  else c.

Fixpoint upper (s : string) : string :=
  match s with
  | EmptyString => EmptyString
  | String c s' => String (upper_char c) (upper s')
  end.

(** [int(s)] for a string of decimal digits *)
Fixpoint int_from (acc : N) (s : string) : N :=
  match s with
  | EmptyString => acc
  | String c s' => int_from (acc * 10 + (code c - 48))%N s'
  end.

Definition int (s : string) : N := int_from 0%N s.

(** [os.path.basename] for POSIX paths: what follows the last slash. *)
Fixpoint basename (s : string) : string :=
  match s with
  | EmptyString => EmptyString
  | String c s' =>
      if contains "/" s then basename s' else s
  end.

(** Text-mode reading with universal newlines: CR LF and a lone CR both
    become LF. *)
Fixpoint universal_newlines (s : string) : string :=
  match s with
  | EmptyString => EmptyString
  | String c s' =>
      if Ascii.eqb c carriage_return then
        match s' with
        | String c' s'' =>
            if Ascii.eqb c' newline then String newline (universal_newlines s'')
            else String newline (universal_newlines s')
        | EmptyString => String newline EmptyString
        end
      else String c (universal_newlines s')
  end.

(** [sorted] on strings: code-point order. *)
Definition str_le (a b : string) : Prop := String.leb a b = true.

#[global] Instance str_le_dec a b : Decision (str_le a b).
Proof. unfold str_le. apply _. Defined.

Definition sorted (l : list string) : list string := merge_sort str_le l.

End PyStr.

(** ** The fragment of Python's [re] used by the sources

    A backtracking matcher in continuation-passing style: alternatives are
    tried in the order Python tries them (left branch first, greedy
    repetition longest first, lazy repetition shortest first), and the
    first overall success is the match.  Every repetition in the sources'
    patterns is over a single character class, which is what [Rep] covers. *)

Module Re.
Import PyStr.

Inductive regex : Type :=
| Eps : regex
| Chr (p : ascii → bool) : regex
| Seq (a b : regex) : regex
| Alt (a b : regex) : regex
| Opt (a : regex) : regex
| Rep (greedy : bool) (least : nat) (p : ascii → bool) : regex
| Grp (i : nat) (a : regex) : regex
| Bnd : regex.

(** Numbered groups that took part in the match, most recent first. *)
Definition captures : Type := list (nat * string).

Record match_result : Type := MatchResult {
  caps : captures;
  prev_end : option ascii;   (* the character before the end of the match *)
  rest : string              (* the text after the match *)
}.

Definition cont : Type := option ascii → string → captures → option match_result.

Definition finish : cont := fun prev s cs => Some (MatchResult cs prev s).

(** The text consumed between position [s] and the later position [s']. *)
Definition consumed (s s' : string) : string :=
  String.substring 0 (String.length s - String.length s') s.

Definition word_boundary (prev : option ascii) (s : string) : bool :=
  xorb (match prev with Some c => is_word c | None => false end)
       (match s with String c _ => is_word c | EmptyString => false end).

Fixpoint rep_greedy (p : ascii → bool) (least : nat) (prev : option ascii)
    (s : string) (k : option ascii → string → option match_result)
    : option match_result :=
  let stop := match least with O => k prev s | S _ => None end in
  match s with
  | String c s' =>
      if p c then
        match rep_greedy p (Nat.pred least) (Some c) s' k with
        | Some r => Some r
        | None => stop
        end
      else stop
  | EmptyString => stop
  end.

Fixpoint rep_lazy (p : ascii → bool) (least : nat) (prev : option ascii)
    (s : string) (k : option ascii → string → option match_result)
    : option match_result :=
  let stop := match least with O => k prev s | S _ => None end in
  match stop with
  | Some r => Some r
  | None =>
      match s with
      | String c s' =>
          if p c then rep_lazy p (Nat.pred least) (Some c) s' k else None
      | EmptyString => None
      end
  end.

Fixpoint run (r : regex) (prev : option ascii) (s : string) (cs : captures)
    (k : cont) : option match_result :=
  match r with
  | Eps => k prev s cs
  | Chr p =>
      match s with
      | String c s' => if p c then k (Some c) s' cs else None
      | EmptyString => None
      end
  | Seq a b => run a prev s cs (fun prev' s' cs' => run b prev' s' cs' k)
  | Alt a b =>
      match run a prev s cs k with
      | Some m => Some m
      | None => run b prev s cs k
      end
  | Opt a =>
      match run a prev s cs k with
      | Some m => Some m
      | None => k prev s cs
      end
  | Rep greedy least p =>
      (if greedy then rep_greedy else rep_lazy) p least prev s
        (fun prev' s' => k prev' s' cs)
  | Grp i a =>
      run a prev s cs (fun prev' s' cs' => k prev' s' ((i, consumed s s') :: cs'))
  | Bnd => if word_boundary prev s then k prev s cs else None
  end.

(** [re.match]: a match that starts at the first character. *)
Definition match_start (r : regex) (s : string) : option match_result :=
  run r None s [] finish.

(** [re.search]: the leftmost position at which the pattern matches. *)
Fixpoint search_from (r : regex) (prev : option ascii) (s : string)
    : option match_result :=
  match run r prev s [] finish with
  | Some m => Some m
  | None =>
      match s with
      | String c s' => search_from r (Some c) s'
      | EmptyString => None
      end
  end.

Definition search (r : regex) (s : string) : option match_result :=
  search_from r None s.

(** [re.finditer] for patterns that cannot match the empty string (all
    the patterns the sources iterate are of this kind): the next search
    starts where the previous match ended.  A match consumes at least one
    character, so [S (length s)] rounds are never exhausted. *)
Fixpoint finditer_from (rounds : nat) (r : regex) (prev : option ascii)
    (s : string) : list match_result :=
  match rounds with
  | O => []
  | S n =>
      match search_from r prev s with
      | Some m => m :: finditer_from n r (prev_end m) (rest m)
      | None => []
      end
  end.

Definition finditer (r : regex) (s : string) : list match_result :=
  finditer_from (S (String.length s)) r None s.

(** A syntactic check that a pattern cannot match the empty string. *)
Fixpoint consumes (r : regex) : bool :=
  match r with
  | Eps | Opt _ | Bnd => false
  | Chr _ => true
  | Seq a b => consumes a || consumes b
  | Alt a b => consumes a && consumes b
  | Rep _ least _ => negb (Nat.eqb least 0)
  | Grp _ a => consumes a
  end.

(** [m.group(i)]: [None] when the group took no part in the match. *)
Fixpoint lookup_group (i : nat) (cs : captures) : option string :=
  match cs with
  | [] => None
  | (j, v) :: cs' => if Nat.eqb i j then Some v else lookup_group i cs'
  end.

Definition group (i : nat) (m : match_result) : option string :=
  lookup_group i (caps m).

(** [m.group(i)] if it is a non-empty string, the empty string otherwise *)
Definition group_or_empty (i : nat) (m : match_result) : string :=
  default EmptyString (group i m).

(** A match object is true, [None] is false. *)
Definition matched (m : option match_result) : bool :=
  match m with Some _ => true | None => false end.

(** *** Pattern syntax *)

Definition is_char (c : ascii) : ascii → bool := Ascii.eqb c.
Definition not_char (c : ascii) : ascii → bool := fun x => negb (Ascii.eqb c x).
Definition any_char : ascii → bool := fun _ => true.
(** [.] without DOTALL *)
Definition dot : ascii → bool := not_char newline.

Fixpoint Lit (s : string) : regex :=
  match s with
  | EmptyString => Eps
  | String c s' => Seq (Chr (is_char c)) (Lit s')
  end.

Fixpoint Cat (rs : list regex) : regex :=
  match rs with
  | [] => Eps
  | [r] => r
  | r :: rs' => Seq r (Cat rs')
  end.

Fixpoint AltOf (rs : list regex) : regex :=
  match rs with
  | [] => Eps
  | [r] => r
  | r :: rs' => Alt r (AltOf rs')
  end.

Definition Star (p : ascii → bool) : regex := Rep true 0 p.
Definition Plus (p : ascii → bool) : regex := Rep true 1 p.
Definition LazyStar (p : ascii → bool) : regex := Rep false 0 p.
Definition LazyPlus (p : ascii → bool) : regex := Rep false 1 p.

End Re.

(** ** [fanuc_analyzer.py] *)

Module Analyzer.
Import PyStr Re.

Inductive ProgramType : Type :=
| unknown | main | subprogram | utility | system | other.

#[global] Instance ProgramType_eq_dec : EqDecision ProgramType.
Proof. solve_decision. Defined.

(** [class FANUCProgram].  Python sets are [gset]s, dictionaries [gmap]s,
    lists [list]s. *)
Record FANUCProgram : Type := {
  filename : string;
  name : string;
  attributes : gmap string string;
  labels : list (N * string * nat);   (* (label_num, label_name, line_num) *)
  positions : list (N * string);
  registers_used : gset (N * string);
  digital_inputs : gset (N * string);
  digital_outputs : gset (N * string);
  register_inputs : gset (N * string);
  register_outputs : gset (N * string);
  calls : list (string * nat);   (* (subprogram_name, line_num) *)
  jumps : list (N * nat);   (* (target_label, line_num) *)
  code_lines : list string;   (* code lines of the /MN section *)
  position_registers : list (N * string);
  errors : list (N * string);   (* error labels (LBL[500-799]) *)
  program_type : ProgramType;
  product_code : option string;
  has_iml : bool;
  statistics : gmap string nat
}.

(** [FANUCProgram.__init__] *)
Definition new_program (filename : string) : FANUCProgram :=
  {| filename := filename; name := ""; attributes := ∅; labels := [];
     positions := []; registers_used := ∅; digital_inputs := ∅;
     digital_outputs := ∅; register_inputs := ∅; register_outputs := ∅;
     calls := []; jumps := []; code_lines := []; position_registers := [];
     errors := []; program_type := unknown; product_code := None;
     has_iml := false; statistics := ∅ |}.

(** Assignment to one attribute of a program object. *)
Definition set_name (v : string) (p : FANUCProgram) : FANUCProgram :=
  {| filename := filename p; name := v; attributes := attributes p; labels
  := labels p; positions := positions p; registers_used := registers_used p;
  digital_inputs := digital_inputs p; digital_outputs := digital_outputs p;
  register_inputs := register_inputs p; register_outputs := register_outputs
  p; calls := calls p; jumps := jumps p; code_lines := code_lines p;
  position_registers := position_registers p; errors := errors p;
  program_type := program_type p; product_code := product_code p; has_iml :=
  has_iml p; statistics := statistics p |}.

Definition set_attributes (v : gmap string string) (p : FANUCProgram) : FANUCProgram :=
  {| filename := filename p; name := name p; attributes := v; labels :=
  labels p; positions := positions p; registers_used := registers_used p;
  digital_inputs := digital_inputs p; digital_outputs := digital_outputs p;
  register_inputs := register_inputs p; register_outputs := register_outputs
  p; calls := calls p; jumps := jumps p; code_lines := code_lines p;
  position_registers := position_registers p; errors := errors p;
  program_type := program_type p; product_code := product_code p; has_iml :=
  has_iml p; statistics := statistics p |}.

Definition set_labels (v : list (N * string * nat)) (p : FANUCProgram) : FANUCProgram :=
  {| filename := filename p; name := name p; attributes := attributes p;
  labels := v; positions := positions p; registers_used := registers_used p;
  digital_inputs := digital_inputs p; digital_outputs := digital_outputs p;
  register_inputs := register_inputs p; register_outputs := register_outputs
  p; calls := calls p; jumps := jumps p; code_lines := code_lines p;
  position_registers := position_registers p; errors := errors p;
  program_type := program_type p; product_code := product_code p; has_iml :=
  has_iml p; statistics := statistics p |}.

Definition set_positions (v : list (N * string)) (p : FANUCProgram) : FANUCProgram :=
  {| filename := filename p; name := name p; attributes := attributes p;
  labels := labels p; positions := v; registers_used := registers_used p;
  digital_inputs := digital_inputs p; digital_outputs := digital_outputs p;
  register_inputs := register_inputs p; register_outputs := register_outputs
  p; calls := calls p; jumps := jumps p; code_lines := code_lines p;
  position_registers := position_registers p; errors := errors p;
  program_type := program_type p; product_code := product_code p; has_iml :=
  has_iml p; statistics := statistics p |}.

Definition set_registers_used (v : gset (N * string)) (p : FANUCProgram) : FANUCProgram :=
  {| filename := filename p; name := name p; attributes := attributes p;
  labels := labels p; positions := positions p; registers_used := v;
  digital_inputs := digital_inputs p; digital_outputs := digital_outputs p;
  register_inputs := register_inputs p; register_outputs := register_outputs
  p; calls := calls p; jumps := jumps p; code_lines := code_lines p;
  position_registers := position_registers p; errors := errors p;
  program_type := program_type p; product_code := product_code p; has_iml :=
  has_iml p; statistics := statistics p |}.

Definition set_digital_inputs (v : gset (N * string)) (p : FANUCProgram) : FANUCProgram :=
  {| filename := filename p; name := name p; attributes := attributes p;
  labels := labels p; positions := positions p; registers_used :=
  registers_used p; digital_inputs := v; digital_outputs := digital_outputs
  p; register_inputs := register_inputs p; register_outputs :=
  register_outputs p; calls := calls p; jumps := jumps p; code_lines :=
  code_lines p; position_registers := position_registers p; errors := errors
  p; program_type := program_type p; product_code := product_code p; has_iml
  := has_iml p; statistics := statistics p |}.

Definition set_digital_outputs (v : gset (N * string)) (p : FANUCProgram) : FANUCProgram :=
  {| filename := filename p; name := name p; attributes := attributes p;
  labels := labels p; positions := positions p; registers_used :=
  registers_used p; digital_inputs := digital_inputs p; digital_outputs :=
  v; register_inputs := register_inputs p; register_outputs :=
  register_outputs p; calls := calls p; jumps := jumps p; code_lines :=
  code_lines p; position_registers := position_registers p; errors := errors
  p; program_type := program_type p; product_code := product_code p; has_iml
  := has_iml p; statistics := statistics p |}.

Definition set_register_inputs (v : gset (N * string)) (p : FANUCProgram) : FANUCProgram :=
  {| filename := filename p; name := name p; attributes := attributes p;
  labels := labels p; positions := positions p; registers_used :=
  registers_used p; digital_inputs := digital_inputs p; digital_outputs :=
  digital_outputs p; register_inputs := v; register_outputs :=
  register_outputs p; calls := calls p; jumps := jumps p; code_lines :=
  code_lines p; position_registers := position_registers p; errors := errors
  p; program_type := program_type p; product_code := product_code p; has_iml
  := has_iml p; statistics := statistics p |}.

Definition set_register_outputs (v : gset (N * string)) (p : FANUCProgram) : FANUCProgram :=
  {| filename := filename p; name := name p; attributes := attributes p;
  labels := labels p; positions := positions p; registers_used :=
  registers_used p; digital_inputs := digital_inputs p; digital_outputs :=
  digital_outputs p; register_inputs := register_inputs p; register_outputs
  := v; calls := calls p; jumps := jumps p; code_lines := code_lines p;
  position_registers := position_registers p; errors := errors p;
  program_type := program_type p; product_code := product_code p; has_iml :=
  has_iml p; statistics := statistics p |}.

Definition set_calls (v : list (string * nat)) (p : FANUCProgram) : FANUCProgram :=
  {| filename := filename p; name := name p; attributes := attributes p;
  labels := labels p; positions := positions p; registers_used :=
  registers_used p; digital_inputs := digital_inputs p; digital_outputs :=
  digital_outputs p; register_inputs := register_inputs p; register_outputs
  := register_outputs p; calls := v; jumps := jumps p; code_lines :=
  code_lines p; position_registers := position_registers p; errors := errors
  p; program_type := program_type p; product_code := product_code p; has_iml
  := has_iml p; statistics := statistics p |}.

Definition set_jumps (v : list (N * nat)) (p : FANUCProgram) : FANUCProgram :=
  {| filename := filename p; name := name p; attributes := attributes p;
  labels := labels p; positions := positions p; registers_used :=
  registers_used p; digital_inputs := digital_inputs p; digital_outputs :=
  digital_outputs p; register_inputs := register_inputs p; register_outputs
  := register_outputs p; calls := calls p; jumps := v; code_lines :=
  code_lines p; position_registers := position_registers p; errors := errors
  p; program_type := program_type p; product_code := product_code p; has_iml
  := has_iml p; statistics := statistics p |}.

Definition set_code_lines (v : list string) (p : FANUCProgram) : FANUCProgram :=
  {| filename := filename p; name := name p; attributes := attributes p;
  labels := labels p; positions := positions p; registers_used :=
  registers_used p; digital_inputs := digital_inputs p; digital_outputs :=
  digital_outputs p; register_inputs := register_inputs p; register_outputs
  := register_outputs p; calls := calls p; jumps := jumps p; code_lines :=
  v; position_registers := position_registers p; errors := errors p;
  program_type := program_type p; product_code := product_code p; has_iml :=
  has_iml p; statistics := statistics p |}.

Definition set_position_registers (v : list (N * string)) (p : FANUCProgram) : FANUCProgram :=
  {| filename := filename p; name := name p; attributes := attributes p;
  labels := labels p; positions := positions p; registers_used :=
  registers_used p; digital_inputs := digital_inputs p; digital_outputs :=
  digital_outputs p; register_inputs := register_inputs p; register_outputs
  := register_outputs p; calls := calls p; jumps := jumps p; code_lines :=
  code_lines p; position_registers := v; errors := errors p; program_type :=
  program_type p; product_code := product_code p; has_iml := has_iml p;
  statistics := statistics p |}.

Definition set_errors (v : list (N * string)) (p : FANUCProgram) : FANUCProgram :=
  {| filename := filename p; name := name p; attributes := attributes p;
  labels := labels p; positions := positions p; registers_used :=
  registers_used p; digital_inputs := digital_inputs p; digital_outputs :=
  digital_outputs p; register_inputs := register_inputs p; register_outputs
  := register_outputs p; calls := calls p; jumps := jumps p; code_lines :=
  code_lines p; position_registers := position_registers p; errors := v;
  program_type := program_type p; product_code := product_code p; has_iml :=
  has_iml p; statistics := statistics p |}.

Definition set_program_type (v : ProgramType) (p : FANUCProgram) : FANUCProgram :=
  {| filename := filename p; name := name p; attributes := attributes p;
  labels := labels p; positions := positions p; registers_used :=
  registers_used p; digital_inputs := digital_inputs p; digital_outputs :=
  digital_outputs p; register_inputs := register_inputs p; register_outputs
  := register_outputs p; calls := calls p; jumps := jumps p; code_lines :=
  code_lines p; position_registers := position_registers p; errors := errors
  p; program_type := v; product_code := product_code p; has_iml := has_iml
  p; statistics := statistics p |}.

Definition set_product_code (v : option string) (p : FANUCProgram) : FANUCProgram :=
  {| filename := filename p; name := name p; attributes := attributes p;
  labels := labels p; positions := positions p; registers_used :=
  registers_used p; digital_inputs := digital_inputs p; digital_outputs :=
  digital_outputs p; register_inputs := register_inputs p; register_outputs
  := register_outputs p; calls := calls p; jumps := jumps p; code_lines :=
  code_lines p; position_registers := position_registers p; errors := errors
  p; program_type := program_type p; product_code := v; has_iml := has_iml
  p; statistics := statistics p |}.

Definition set_has_iml (v : bool) (p : FANUCProgram) : FANUCProgram :=
  {| filename := filename p; name := name p; attributes := attributes p;
  labels := labels p; positions := positions p; registers_used :=
  registers_used p; digital_inputs := digital_inputs p; digital_outputs :=
  digital_outputs p; register_inputs := register_inputs p; register_outputs
  := register_outputs p; calls := calls p; jumps := jumps p; code_lines :=
  code_lines p; position_registers := position_registers p; errors := errors
  p; program_type := program_type p; product_code := product_code p; has_iml
  := v; statistics := statistics p |}.

Definition set_statistics (v : gmap string nat) (p : FANUCProgram) : FANUCProgram :=
  {| filename := filename p; name := name p; attributes := attributes p;
  labels := labels p; positions := positions p; registers_used :=
  registers_used p; digital_inputs := digital_inputs p; digital_outputs :=
  digital_outputs p; register_inputs := register_inputs p; register_outputs
  := register_outputs p; calls := calls p; jumps := jumps p; code_lines :=
  code_lines p; position_registers := position_registers p; errors := errors
  p; program_type := program_type p; product_code := product_code p; has_iml
  := has_iml p; statistics := v |}.

(** *** The patterns of [FANUCParser] *)

Definition dquote : ascii := ascii_of_N 34.

(** [/PROG\s+(\w+)] *)
Definition header_re : regex :=
  Cat [Lit "/PROG"; Plus is_space; Grp 1 (Plus is_word)].

(** [/ATTR(.*?)/(?:APPL|MN)] with DOTALL *)
Definition attr_section_re : regex :=
  Cat [Lit "/ATTR"; Grp 1 (LazyStar any_char); Lit "/"; AltOf [Lit "APPL"; Lit "MN"]].

(** [/MN(.*?)/(?:POS|END)] with DOTALL *)
Definition mn_section_re : regex :=
  Cat [Lit "/MN"; Grp 1 (LazyStar any_char); Lit "/"; AltOf [Lit "POS"; Lit "END"]].

(** [/POS(.*?)/END] with DOTALL *)
Definition pos_section_re : regex :=
  Cat [Lit "/POS"; Grp 1 (LazyStar any_char); Lit "/END"].

(** [KEY\s*=\s*] *)
Definition key_eq (key : string) : list regex :=
  [Lit key; Star is_space; Lit "="; Star is_space].

(** [KEY\s*=\s*([^;]+);] *)
Definition until_semicolon_re (key : string) : regex :=
  Cat (key_eq key ++ [Grp 1 (Plus (not_char ";")); Lit ";"]).

(** [KEY\s*=\s*(\d+)] *)
Definition number_re (key : string) : regex :=
  Cat (key_eq key ++ [Grp 1 (Plus is_digit)]).

Definition date_char (c : ascii) : bool := is_digit c || is_char "-" c.
Definition time_char (c : ascii) : bool := is_digit c || is_char ":" c.

(** [KEY\s*=\s*DATE\s+([\d-]+)\s+TIME\s+([\d:]+)] *)
Definition date_time_re (key : string) : regex :=
  Cat (key_eq key ++
       [Lit "DATE"; Plus is_space; Grp 1 (Plus date_char); Plus is_space;
        Lit "TIME"; Plus is_space; Grp 2 (Plus time_char)]).

(** [COMMENT\s*=\s*Q([^Q]+)Q], with Q the double-quote character *)
Definition comment_re : regex :=
  Cat (key_eq "COMMENT" ++
       [Chr (is_char dquote); Grp 1 (Plus (not_char dquote)); Chr (is_char dquote)]).

(** The [patterns] dictionary of [_parse_attributes], in its order. *)
Definition patterns : list (string * regex) :=
  [("OWNER", until_semicolon_re "OWNER");
   ("COMMENT", comment_re);
   ("PROG_SIZE", number_re "PROG_SIZE");
   ("CREATE", date_time_re "CREATE");
   ("MODIFIED", date_time_re "MODIFIED");
   ("LINE_COUNT", number_re "LINE_COUNT");
   ("MEMORY_SIZE", number_re "MEMORY_SIZE");
   ("PROTECT", until_semicolon_re "PROTECT")].

(** [KIND\[(\d+)(?::([^\]]+))?\]] for [KIND] one of LBL, R, DI, DO, RI,
    RO, PR *)
Definition bracket_re (kind : string) : regex :=
  Cat [Lit kind; Lit "["; Grp 1 (Plus is_digit);
       Opt (Cat [Lit ":"; Grp 2 (Plus (not_char "]"))]); Lit "]"].

Definition label_re : regex := bracket_re "LBL".

(** [JMP\s+LBL\[(\d+)] *)
Definition jump_re : regex :=
  Cat [Lit "JMP"; Plus is_space; Lit "LBL["; Grp 1 (Plus is_digit)].

(** [CALL\s+(\w+)] *)
Definition call_re : regex :=
  Cat [Lit "CALL"; Plus is_space; Grp 1 (Plus is_word)].

(** [P\[(\d+)(?::Q([^Q]+)Q)?\]], with Q the double-quote character *)
Definition position_re : regex :=
  Cat [Lit "P["; Grp 1 (Plus is_digit);
       Opt (Cat [Lit ":"; Chr (is_char dquote); Grp 2 (Plus (not_char dquote));
                 Chr (is_char dquote)]);
       Lit "]"].

(** [A_1PA\d{3}] *)
Definition main_name_re : regex :=
  Cat [Lit "A_1PA"; Chr is_digit; Chr is_digit; Chr is_digit].

(** [_(384|096|1536CC|005|017|140|180)] *)
Definition product_code_re : regex :=
  Cat [Lit "_";
       Grp 1 (AltOf [Lit "384"; Lit "096"; Lit "1536CC"; Lit "005"; Lit "017";
                     Lit "140"; Lit "180"])].

(** *** [FANUCProgram] methods *)



Definition in_list (x : string) (l : list string) : bool :=
  existsb (String.eqb x) l.

(** [FANUCProgram.classify_program] *)
Definition classify_program (p : FANUCProgram) : FANUCProgram :=
  let name := name p in
  if matched (match_start main_name_re name) then
    let p := set_program_type main p in
    if existsb (fun line => contains "IML" (upper line) || contains "FOLIE" (upper line))
               (code_lines p)
    then set_has_iml true p else p
  else if existsb (fun prefix => contains prefix name)
                  ["KER1_"; "KER2_"; "AFLG_"; "PRINTEN"; "BUF_"] then
    let p := set_program_type subprogram p in
    match search product_code_re name with
    | Some m => set_product_code (group 1 m) p
    | None => p
    end
  else if in_list name ["HOMING"; "HOMEN"; "HOMEN1"; "TEKST"; "FOLIE"; "DUMPEN"; "RUST"] then
    set_program_type utility p
  else if startswith "ERR" name || in_list name ["LOGBOOK"; "PMC"] then
    set_program_type system p
  else
    set_program_type other p.

(** [FANUCProgram.calculate_statistics] *)
Definition calculate_statistics (p : FANUCProgram) : FANUCProgram :=
  set_statistics
    (list_to_map
       [("total_lines", length (code_lines p));
        ("label_count", length (labels p));
        ("call_count", length (calls p));
        ("jump_count", length (jumps p));
        ("position_count", length (positions p));
        ("register_count", size (registers_used p));
        ("di_count", size (digital_inputs p));
        ("do_count", size (digital_outputs p));
        ("ri_count", size (register_inputs p));
        ("ro_count", size (register_outputs p));
        ("error_labels", length (errors p))])
    p.

(** *** [FANUCParser] *)

(** [FANUCParser._parse_header] *)
Definition _parse_header (program : FANUCProgram) (content : string) : FANUCProgram :=
  match search header_re content with
  | Some m => set_name (group_or_empty 1 m) program
  | None => program
  end.

(** The body of the loop over [patterns.items()]. *)
Definition parse_attribute (attr_text : string) (program : FANUCProgram)
    (entry : string * regex) : FANUCProgram :=
  let (key, pattern) := entry in
  match search pattern attr_text with
  | Some m =>
      if in_list key ["CREATE"; "MODIFIED"] then
        set_attributes
          (<[key := group_or_empty 1 m +:+ " " +:+ group_or_empty 2 m]> (attributes program))
          program
      else
        set_attributes (<[key := strip (group_or_empty 1 m)]> (attributes program)) program
  | None => program
  end.

(** [FANUCParser._parse_attributes] *)
Definition _parse_attributes (program : FANUCProgram) (content : string) : FANUCProgram :=
  match search attr_section_re content with
  | None => program
  | Some attr_section =>
      let attr_text := group_or_empty 1 attr_section in
      fold_left (parse_attribute attr_text) patterns program
  end.

(** The operands of one kind on a line: [(num, name)] for every match of
    [re.finditer]. *)
Definition operands (kind : string) (line : string) : list (N * string) :=
  map (fun m => (int (group_or_empty 1 m), group_or_empty 2 m))
      (finditer (bracket_re kind) line).

Definition add_all (xs : list (N * string)) (s : gset (N * string)) : gset (N * string) :=
  fold_left (fun acc x => acc ∪ {[x]}) xs s.

Definition in_pairs (x : N * string) (l : list (N * string)) : bool :=
  bool_decide (x ∈ l).

Definition append_new (xs : list (N * string)) (l : list (N * string)) : list (N * string) :=
  fold_left (fun acc x => if in_pairs x acc then acc else acc ++ [x]) xs l.

(** [if not line or line.startswith('!')] *)
Definition skipped (line : string) : bool :=
  String.eqb line "" || startswith "!" line.

(** [500 <= label_num < 800] *)
Definition in_error_window (label_num : N) : bool :=
  ((500 <=? label_num) && (label_num <? 800))%N.

(** The body of the loop of [_parse_code] over [enumerate(lines)]. *)
Definition parse_code_line (i : nat) (raw : string) (program : FANUCProgram)
    : FANUCProgram :=
  let line := strip raw in
  if skipped line then program
  else
    let program := set_code_lines (code_lines program ++ [line]) program in
    let program :=
      match search label_re line with
      | Some label_match =>
          let label_num := int (group_or_empty 1 label_match) in
          let label_name := group_or_empty 2 label_match in
          let program :=
            set_labels (labels program ++ [(label_num, label_name, i)]) program in
          if in_error_window label_num
          then set_errors (errors program ++ [(label_num, label_name)]) program
          else program
      | None => program
      end in
    let program :=
      match search jump_re line with
      | Some jump_match =>
          set_jumps (jumps program ++ [(int (group_or_empty 1 jump_match), i)]) program
      | None => program
      end in
    let program :=
      match search call_re line with
      | Some call_match =>
          set_calls (calls program ++ [(group_or_empty 1 call_match, i)]) program
      | None => program
      end in
    let program :=
      set_registers_used (add_all (operands "R" line) (registers_used program)) program in
    let program :=
      set_digital_inputs (add_all (operands "DI" line) (digital_inputs program)) program in
    let program :=
      set_digital_outputs (add_all (operands "DO" line) (digital_outputs program)) program in
    let program :=
      set_register_inputs (add_all (operands "RI" line) (register_inputs program)) program in
    let program :=
      set_register_outputs (add_all (operands "RO" line) (register_outputs program)) program in
    set_position_registers
      (append_new (operands "PR" line) (position_registers program)) program.

(** The loop of [_parse_code], from line number [i] on. *)
Fixpoint parse_code_lines (i : nat) (lines : list string) (program : FANUCProgram)
    : FANUCProgram :=
  match lines with
  | [] => program
  | raw :: lines' => parse_code_lines (S i) lines' (parse_code_line i raw program)
  end.

(** The main-code region: group 1 of the /MN search. *)
Definition mn_section (content : string) : option string :=
  match search mn_section_re content with
  | Some m => Some (group_or_empty 1 m)
  | None => None
  end.

(** [FANUCParser._parse_code] *)
Definition _parse_code (program : FANUCProgram) (content : string) : FANUCProgram :=
  match mn_section content with
  | None => program
  | Some code_text => parse_code_lines 0 (split_lines code_text) program
  end.

(** [FANUCParser._parse_positions] *)
Definition _parse_positions (program : FANUCProgram) (content : string) : FANUCProgram :=
  match search pos_section_re content with
  | None => program
  | Some pos_section =>
      let pos_text := group_or_empty 1 pos_section in
      fold_left
        (fun program pos_match =>
           set_positions
             (positions program ++
              [(int (group_or_empty 1 pos_match), group_or_empty 2 pos_match)])
             program)
        (finditer position_re pos_text) program
  end.

(** What [f.read()] returns for a file holding [bytes]. *)
Definition read (bytes : string) : string := universal_newlines bytes.

(** [FANUCParser.parse_file], for a file at [filepath] holding [bytes].
    The parser object [programs] is received as [self]; the method builds
    a fresh program and returns it. *)
Definition parse_file (programs : gmap string FANUCProgram) (filepath : string)
    (bytes : string) : FANUCProgram :=
  let program := new_program (basename filepath) in
  let content := read bytes in
  let program := _parse_header program content in
  let program := _parse_attributes program content in
  let program := _parse_code program content in
  let program := _parse_positions program content in
  let program := classify_program program in
  calculate_statistics program.

End Analyzer.

(** ** [FANUCAnalyzer] of [fanuc_analyzer.py] *)

Module Aggregator.
Import PyStr Re Analyzer.

(** [io_map]: a dictionary with the four fixed keys DI, DO, RI, RO. *)
Record IOMap : Type := {
  DI : gmap N (gset string);
  DO : gmap N (gset string);
  RI : gmap N (gset string);
  RO : gmap N (gset string)
}.

(** [class FANUCAnalyzer]; [programs] is [self.parser.programs]. *)
Record FANUCAnalyzer : Type := {
  programs : gmap string FANUCProgram;
  call_graph : gmap string (list string);
  register_map : gmap N (gset string);
  io_map : IOMap
}.

(** [FANUCAnalyzer.__init__] over a fresh [FANUCParser]. *)
Definition new_analyzer : FANUCAnalyzer :=
  {| programs := ∅; call_graph := ∅; register_map := ∅;
     io_map := {| DI := ∅; DO := ∅; RI := ∅; RO := ∅ |} |}.

(** [self.call_graph[prog_name].append(called_prog)] on a
    [defaultdict(list)] *)
Definition append_call (prog_name : string) (graph : gmap string (list string))
    (call : string * nat) : gmap string (list string) :=
  <[prog_name := default [] (graph !! prog_name) ++ [call.1]]> graph.

(** The loops of [_build_call_graph]. *)
Definition build_call_graph (programs : gmap string FANUCProgram)
    (graph : gmap string (list string)) : gmap string (list string) :=
  map_fold (fun prog_name program graph =>
              fold_left (append_call prog_name) (calls program) graph)
           graph programs.

(** [if name: table[num].add(name)] on a [defaultdict(set)] *)
Definition add_alias (entry : N * string) (table : gmap N (gset string))
    : gmap N (gset string) :=
  let (num, name) := entry in
  if String.eqb name "" then table
  else <[num := default ∅ (table !! num) ∪ {[name]}]> table.

(** One alias table folded over one operand set of every program: the
    loops of [_build_register_map], and of [_build_io_map] for each of
    its four kinds. *)
Definition build_alias_table (operands_of : FANUCProgram → gset (N * string))
    (programs : gmap string FANUCProgram) (table : gmap N (gset string))
    : gmap N (gset string) :=
  map_fold (fun _ program table => set_fold add_alias table (operands_of program))
           table programs.

Definition _build_call_graph (self : FANUCAnalyzer) : FANUCAnalyzer :=
  {| programs := programs self;
     call_graph := build_call_graph (programs self) (call_graph self);
     register_map := register_map self;
     io_map := io_map self |}.

Definition _build_register_map (self : FANUCAnalyzer) : FANUCAnalyzer :=
  {| programs := programs self;
     call_graph := call_graph self;
     register_map := build_alias_table registers_used (programs self) (register_map self);
     io_map := io_map self |}.

Definition _build_io_map (self : FANUCAnalyzer) : FANUCAnalyzer :=
  {| programs := programs self;
     call_graph := call_graph self;
     register_map := register_map self;
     io_map :=
       {| DI := build_alias_table digital_inputs (programs self) (DI (io_map self));
          DO := build_alias_table digital_outputs (programs self) (DO (io_map self));
          RI := build_alias_table register_inputs (programs self) (RI (io_map self));
          RO := build_alias_table register_outputs (programs self) (RO (io_map self)) |} |}.

(** The loop of [analyze_all] over the files of the directory, each given
    as its path and its bytes: [self.parser.programs[program.name] =
    program]. *)
Definition parse_all (files : list (string * string))
    (programs : gmap string FANUCProgram) : gmap string FANUCProgram :=
  fold_left (fun programs file =>
               let program := parse_file programs file.1 file.2 in
               <[name program := program]> programs)
            files programs.

(** [FANUCAnalyzer.analyze_all] *)
Definition analyze_all (files : list (string * string)) (self : FANUCAnalyzer)
    : FANUCAnalyzer :=
  let self :=
    {| programs := parse_all files (programs self);
       call_graph := call_graph self;
       register_map := register_map self;
       io_map := io_map self |} in
  _build_io_map (_build_register_map (_build_call_graph self)).

(** *** The call tree *)

(** The state threaded through [_write_call_tree]: the shared [visited]
    set, the text written to [f] so far, and the names passed to
    [visited.add], in the order of the calls. *)
Record tree_state : Type := {
  visited : gset string;
  written : list string;
  added : list string
}.

Definition indentation (indent : nat) : string :=
  String.concat "" (replicate indent "  ").

(** [f.write("  " * indent + f"├── {called}\n")] *)
Definition write_entry (indent : nat) (called : string) (st : tree_state) : tree_state :=
  {| visited := visited st;
     written := written st ++ [indentation indent +:+ "├── " +:+ called +:+ String newline ""];
     added := added st |}.

(** [visited.add(prog_name)] *)
Definition visit (prog_name : string) (st : tree_state) : tree_state :=
  {| visited := visited st ∪ {[prog_name]};
     written := written st;
     added := added st ++ [prog_name] |}.

(** A [for] loop whose body may fail to return. *)
Fixpoint for_each {A S : Type} (body : A → S → option S) (l : list A) (st : S)
    : option S :=
  match l with
  | [] => Some st
  | x :: l' =>
      match body x st with
      | Some st' => for_each body l' st'
      | None => None
      end
  end.

(** [sorted(set(l))] *)
Definition sorted_set (l : list string) : list string := sorted (remove_dups l).

(** [FANUCAnalyzer._write_call_tree].  [depth] bounds the depth of the
    recursion; [None] means the bound was reached. *)
Fixpoint _write_call_tree (depth : nat) (graph : gmap string (list string))
    (prog_name : string) (indent : nat) (st : tree_state) : option tree_state :=
  match depth with
  | O => None
  | S depth' =>
      if bool_decide (prog_name ∈ visited st) then Some st
      else
        let st := visit prog_name st in
        match graph !! prog_name with
        | Some callees =>
            for_each (fun called st =>
                        _write_call_tree depth' graph called (S indent)
                                         (write_entry indent called st))
                     (sorted_set callees) st
        | None => Some st
        end
  end.

(** A call with [visited=set()], as [_write_call_graph] makes it for each
    main program. *)
Definition fresh_tree : tree_state := {| visited := ∅; written := []; added := [] |}.

Definition call_tree (depth : nat) (graph : gmap string (list string))
    (root : string) : option tree_state :=
  _write_call_tree depth graph root 1 fresh_tree.

(** Every name of the graph, and the root: the names a traversal from
    [root] can meet. *)
Definition names (graph : gmap string (list string)) (root : string) : gset string :=
  {[root]} ∪ dom graph ∪ map_fold (fun _ callees acc => list_to_set callees ∪ acc) ∅ graph.

End Aggregator.

(** ** [fanuc_flow_analyzer.py] *)

Module Flow.
Import PyStr Re.

(** [class FlowNode] *)
Record FlowNode : Type := {
  label_num : N;
  label_name : string;
  instructions : list string;
  successors : list N;       (* label numbers this jumps to *)
  conditions : list string   (* conditions of conditional jumps *)
}.

(** [FlowNode.__init__] *)
Definition new_node (label_num : N) (label_name : string) : FlowNode :=
  {| label_num := label_num; label_name := label_name; instructions := [];
     successors := []; conditions := [] |}.

(** [class FANUCFlowAnalyzer].  Nodes are mutable objects shared between
    [flow_nodes] and the cursor of the scan: [objects] holds every node
    created so far, in creation order, and a reference to a node is its
    index there. *)
Record FANUCFlowAnalyzer : Type := {
  objects : list FlowNode;
  flow_nodes : gmap N nat;        (* label_num -> reference to a FlowNode *)
  entry_point : option N;
  error_nodes : list N;
  main_cycle_labels : list N
}.

(** [FANUCFlowAnalyzer.__init__] *)
Definition new_flow_analyzer : FANUCFlowAnalyzer :=
  {| objects := []; flow_nodes := ∅; entry_point := None; error_nodes := [];
     main_cycle_labels := [] |}.

(** [self.flow_nodes[label_num]] *)
Definition node_of (self : FANUCFlowAnalyzer) (label_num : N) : option FlowNode :=
  match flow_nodes self !! label_num with
  | Some ref => objects self !! ref
  | None => None
  end.

(** [IF\s+(.+?),JMP] *)
Definition if_re : regex :=
  Cat [Lit "IF"; Plus is_space; Grp 1 (LazyPlus dot); Lit ",JMP"].

(** [\bEND\b] *)
Definition end_re : regex := Cat [Bnd; Lit "END"; Bnd].

(** A label-definition line: a new node becomes the current one. *)
Definition open_node (label_num : N) (label_name : string) (self : FANUCFlowAnalyzer)
    : FANUCFlowAnalyzer * option nat :=
  let ref := length (objects self) in
  let special := (label_num =? 10)%N || (label_num =? 20)%N in
  ({| objects := objects self ++ [new_node label_num label_name];
      flow_nodes := <[label_num := ref]> (flow_nodes self);
      entry_point := entry_point self;
      error_nodes :=
        if negb special && Analyzer.in_error_window label_num
        then error_nodes self ++ [label_num] else error_nodes self;
      main_cycle_labels :=
        if special then main_cycle_labels self ++ [label_num]
        else main_cycle_labels self |},
   Some ref).

(** A mutation of the node behind a reference. *)
Definition update_node (ref : nat) (f : FlowNode → FlowNode) (self : FANUCFlowAnalyzer)
    : FANUCFlowAnalyzer :=
  {| objects := alter f ref (objects self);
     flow_nodes := flow_nodes self;
     entry_point := entry_point self;
     error_nodes := error_nodes self;
     main_cycle_labels := main_cycle_labels self |}.

Definition add_instruction (line : string) (n : FlowNode) : FlowNode :=
  {| label_num := label_num n; label_name := label_name n;
     instructions := instructions n ++ [line];
     successors := successors n; conditions := conditions n |}.

Definition add_successor (target : N) (n : FlowNode) : FlowNode :=
  {| label_num := label_num n; label_name := label_name n;
     instructions := instructions n;
     successors := successors n ++ [target]; conditions := conditions n |}.

Definition add_condition (cond : string) (n : FlowNode) : FlowNode :=
  {| label_num := label_num n; label_name := label_name n;
     instructions := instructions n;
     successors := successors n; conditions := conditions n ++ [cond] |}.

(** The body of the loop of [parse_program]; the state is the analyzer
    and the local variable [current_node]. *)
Definition parse_line (raw : string) (st : FANUCFlowAnalyzer * option nat)
    : FANUCFlowAnalyzer * option nat :=
  let (self, current_node) := st in
  let line := strip raw in
  if Analyzer.skipped line then st
  else
    match search Analyzer.label_re line with
    | Some label_match =>
        let label_num := int (group_or_empty 1 label_match) in
        let label_name := strip (group_or_empty 2 label_match) in
        open_node label_num label_name self
    | None =>
        match current_node with
        | Some ref =>
            let self := update_node ref (add_instruction line) self in
            let self :=
              match search Analyzer.jump_re line with
              | Some jump_match =>
                  let target := int (group_or_empty 1 jump_match) in
                  let self := update_node ref (add_successor target) self in
                  match search if_re line with
                  | Some if_match =>
                      update_node ref (add_condition (group_or_empty 1 if_match)) self
                  | None => self
                  end
              | None => self
              end in
            if matched (search end_re line) then (self, None)
            else (self, Some ref)
        | None => st
        end
    end.

(** The loop of [parse_program] over the lines of the main-code region. *)
Definition parse_lines (lines : list string) (st : FANUCFlowAnalyzer * option nat)
    : FANUCFlowAnalyzer * option nat :=
  fold_left (fun st raw => parse_line raw st) lines st.

(** [FANUCFlowAnalyzer.parse_program], for a program file holding [bytes]. *)
Definition parse_program (bytes : string) (self : FANUCFlowAnalyzer)
    : FANUCFlowAnalyzer :=
  let content := Analyzer.read bytes in
  match Analyzer.mn_section content with
  | None => self
  | Some code_text => (parse_lines (split_lines code_text) (self, None)).1
  end.

End Flow.

(** ** Test inputs *)

Module Inputs.
Import PyStr.

(** The text whose lines are [ls], joined by newlines. *)
Definition text (ls : list string) : string :=
  String.concat (String newline "") ls.

(** Main-code lines of the flow scenario of the specification, between
    the anchors of the main-code region. *)
Definition flow_scenario : string :=
  text ["/MN"; "LBL[10]"; "CALL SUB1"; "JMP LBL[20]"; "LBL[20]"; "END"; "/END"].

(** A program whose only instruction is a jump. *)
Definition lone_jump : string :=
  text ["/MN"; "JMP LBL[20]"; "/END"].

(** Two programs that use register 12 under different aliases. *)
Definition speed_ref_file : string :=
  text ["/PROG  PROG_A"; "/MN"; "   1:  R[12:SpeedRef]=100 ;"; "/END"].

Definition speed_alt_file : string :=
  text ["/PROG  PROG_B"; "/MN"; "   1:  R[12:SpeedAlt]=R[3] ;"; "/END"].

(** The analyzer once both files are parsed, before the tables are built. *)
Definition two_programs : Aggregator.FANUCAnalyzer :=
  {| Aggregator.programs :=
       Aggregator.parse_all [("PROG_A.LS", speed_ref_file); ("PROG_B.LS", speed_alt_file)] ∅;
     Aggregator.call_graph := ∅;
     Aggregator.register_map := ∅;
     Aggregator.io_map := Aggregator.io_map Aggregator.new_analyzer |}.

End Inputs.

(** ** Vocabulary of the statements *)

Module Views.
Import PyStr Re Analyzer.

(** The attributes of a program that [_parse_code] writes. *)
Definition code_part (p : FANUCProgram) :=
  (code_lines p, labels p, errors p, jumps p, calls p,
   (registers_used p, digital_inputs p, digital_outputs p,
    register_inputs p, register_outputs p), position_registers p).

(** What a step of [parse_file] leaves alone, region by region. *)
Definition same_attributes (p q : FANUCProgram) : Prop := attributes q = attributes p.
Definition same_code (p q : FANUCProgram) : Prop := code_part q = code_part p.
Definition same_positions (p q : FANUCProgram) : Prop := positions q = positions p.

(** The entries of a [labels] list whose id lies in the error window, as
    [(label_num, label_name)] pairs. *)
Definition error_labels_of (ls : list (N * string * nat)) : list (N * string) :=
  omap (fun l => if in_error_window l.1.1 then Some (l.1.1, l.1.2) else None) ls.

(** The error labels of a program are its labels inside the window, in
    the same order. *)
Definition errors_follow_labels (p : FANUCProgram) : Prop :=
  errors p = error_labels_of (labels p).

(** The label id a raw line defines for the flow scan: the line is not
    skipped and the label pattern is found in it. *)
Definition defines (raw : string) : option N :=
  let line := strip raw in
  if skipped line then None
  else match search label_re line with
       | Some label_match => Some (int (group_or_empty 1 label_match))
       | None => None
       end.

(** The scan of [parse_program] over [lines], from a new analyzer. *)
Definition scan (lines : list string) : Flow.FANUCFlowAnalyzer * option nat :=
  Flow.parse_lines lines (Flow.new_flow_analyzer, None).

(** The conditions of [classify_program] on the program name, in the order
    in which it tests them. *)
Definition rule_main (name : string) : bool :=
  matched (match_start main_name_re name).
Definition rule_subprogram (name : string) : bool :=
  existsb (fun prefix => contains prefix name)
          ["KER1_"; "KER2_"; "AFLG_"; "PRINTEN"; "BUF_"].
Definition rule_utility (name : string) : bool :=
  in_list name ["HOMING"; "HOMEN"; "HOMEN1"; "TEKST"; "FOLIE"; "DUMPEN"; "RUST"].
Definition rule_system (name : string) : bool :=
  startswith "ERR" name || in_list name ["LOGBOOK"; "PMC"].

(** The prefix A_1PA followed by three digits, and then [rest]. *)
Definition main_name (d1 d2 d3 : ascii) (rest : string) : string :=
  "A_1PA" +:+ String d1 (String d2 (String d3 rest)).

(** [table[n]] on a [defaultdict(set)], read without inserting. *)
Definition aliases_of (table : gmap N (gset string)) (n : N) : gset string :=
  default ∅ (table !! n).

(** The label ids of the nodes created so far, in creation order. *)
Definition node_labels (self : Flow.FANUCFlowAnalyzer) : list N :=
  Flow.label_num <$> Flow.objects self.


(** [st'] comes after [st] in a traversal: the names [new] were passed to
    [visited.add] in between, each once and none of them visited before. *)
Definition extends (st st' : Aggregator.tree_state) : Prop :=
  ∃ new : list string,
    Aggregator.added st' = Aggregator.added st ++ new
    ∧ Aggregator.visited st' = Aggregator.visited st ∪ list_to_set new
    ∧ NoDup new
    ∧ ∀ x, x ∈ new → x ∉ Aggregator.visited st.

(** The call graph of two programs that call each other. *)
Definition mutual_calls : gmap string (list string) :=
  {[ "A" := ["B"]; "B" := ["A"] ]}.

(** The keys of the statistics dictionary. *)
Definition statistics_keys : list string :=
  ["total_lines"; "label_count"; "call_count"; "jump_count"; "position_count";
   "register_count"; "di_count"; "do_count"; "ri_count"; "ro_count";
   "error_labels"].

End Views.

(** ** The derivations of [fanuc_flow_analyzer.py] *)

Module Derive.
Import PyStr Re Flow.

(** [cycle_patterns] of [identify_cycle_flow] *)
Definition cycle_patterns : list (N * string) :=
  [(10%N, "NAAR INDUIK / Wait for mold");
   (20%N, "Cyclusteller / Main cycle");
   (25%N, "Pre-checks");
   (30%N, "UITNAME / Take product");
   (35%N, "Product check");
   (40%N, "UITNAME CONTROLE / Grip control");
   (130%N, "KEREN / Turn 1");
   (140%N, "KEREN / Turn 2");
   (150%N, "PRINTEN / Print");
   (160%N, "AFLEGGEN / Place");
   (170%N, "FOLIE / Film handling");
   (200%N, "Return to cycle")].

(** [a or b] on strings: [b] when [a] is empty. *)
Definition or_else (a b : string) : string :=
  if String.eqb a "" then b else a.

(** [FANUCFlowAnalyzer.identify_cycle_flow] *)
Definition identify_cycle_flow (self : FANUCFlowAnalyzer) : list (N * string) :=
  omap (fun pattern : N * string =>
          (fun node => (pattern.1, or_else (label_name node) pattern.2))
            <$> node_of self pattern.1)
       cycle_patterns.

(** The [if]/[elif] chain of [identify_error_handling] on one instruction. *)
Definition action_of (instr : string) : option string :=
  if contains "CALL TEKST" instr then Some "Display error message"
  else if contains "Open hand" instr then Some "Open gripper"
  else if contains "P[1:rust positie]" instr then Some "Move to safe position"
  else if contains "WAIT" instr && contains "USER" instr
       then Some "Wait for operator confirmation"
  else if contains "ABORT" instr then Some "Abort program"
  else None.

(** [sorted] on label numbers *)
Definition sorted_labels (l : list N) : list N := merge_sort N.le l.

(** [FANUCFlowAnalyzer.identify_error_handling]; [None] stands for the
    [KeyError] of [self.flow_nodes[label_num]] on a missing key. *)
Definition identify_error_handling (self : FANUCFlowAnalyzer)
    : option (list (N * string * list string)) :=
  mapM (fun label_num =>
          (fun node => (label_num, label_name node, omap action_of (instructions node)))
            <$> node_of self label_num)
       (sorted_labels (error_nodes self)).

(** [homing_info], a dictionary with four fixed keys *)
Record HomingInfo : Type := {
  has_homing : bool;
  label : option N;
  zones : list string;
  checks : list string
}.

(** A literal character under [re.IGNORECASE], on latin-1 text: the
    letters of the patterns are ASCII, and only the two ASCII cases of a
    letter match it. *)
Definition lower_char (c : ascii) : ascii :=
  if in_range 65 90 c then ascii_of_N (code c + 32) else c.

Definition is_char_nocase (c : ascii) : ascii → bool :=
  fun x => Ascii.eqb (lower_char c) (lower_char x).

Fixpoint LitI (s : string) : regex :=
  match s with
  | EmptyString => Eps
  | String c s' => Seq (Chr (is_char_nocase c)) (LitI s')
  end.

(** [!.*?(vorm|keerunit|printer|buffer|tafel)] with IGNORECASE *)
Definition zone_re : regex :=
  Cat [Lit "!"; LazyStar dot;
       Grp 1 (AltOf [LitI "vorm"; LitI "keerunit"; LitI "printer"; LitI "buffer";
                     LitI "tafel"])].

(** [1000 <= label_num < 1100 or 'HOME' in node.label_name.upper()] *)
Definition is_homing (label_num : N) (node : FlowNode) : bool :=
  ((1000 <=? label_num) && (label_num <? 1100))%N
  || contains "HOME" (upper (label_name node)).

Definition is_check (instr : string) : bool :=
  contains "R[200" instr || contains "R[199" instr || contains "R[198" instr.

(** The body of the loop over the instructions of a homing block. *)
Definition homing_instruction (info : HomingInfo) (instr : string) : HomingInfo :=
  let info :=
    if is_check instr
    then {| has_homing := has_homing info; label := label info;
            zones := zones info; checks := checks info ++ [instr] |}
    else info in
  if contains "IF" instr && contains "JMP" instr then
    match search zone_re instr with
    | Some zone_match =>
        {| has_homing := has_homing info; label := label info;
           zones := zones info ++ [group_or_empty 1 zone_match];
           checks := checks info |}
    | None => info
    end
  else info.

(** The body of the loop over [self.flow_nodes.items()]. *)
Definition homing_block (info : HomingInfo) (item : N * FlowNode) : HomingInfo :=
  let (label_num, node) := item in
  if is_homing label_num node then
    fold_left homing_instruction (instructions node)
              {| has_homing := true; label := Some label_num;
                 zones := zones info; checks := checks info |}
  else info.

(** The elements of a list in the order of their first occurrence. *)
Definition first_occurrences (l : list N) : list N :=
  fold_left (fun acc x => if bool_decide (x ∈ acc) then acc else acc ++ [x]) l [].

(** [self.flow_nodes.items()].  A dictionary iterates in the order in which
    its keys were first inserted; [parse_program] inserts a key whenever it
    creates a node, so the order is that of the first node of each label. *)
Definition items (self : FANUCFlowAnalyzer) : list (N * FlowNode) :=
  omap (fun label_num => (fun node => (label_num, node)) <$> node_of self label_num)
       (first_occurrences (label_num <$> objects self)).

(** [FANUCFlowAnalyzer.analyze_homing_procedure] *)
Definition analyze_homing_procedure (self : FANUCFlowAnalyzer) : HomingInfo :=
  fold_left homing_block (items self)
            {| has_homing := false; label := None; zones := []; checks := [] |}.

End Derive.

(** ** The call-graph section of the report *)

Module Report.
Import PyStr Analyzer Aggregator.

Definition line_end : string := String newline "".

(** ["=" * n] *)
Definition rule (n : nat) : string := String.concat "" (replicate n "=").

(** The names of the programs classified as main. *)
Definition main_programs (programs : gmap string FANUCProgram) : list string :=
  omap (fun entry : string * FANUCProgram =>
          if decide (program_type entry.2 = main) then Some entry.1 else None)
       (map_to_list programs).

(** [FANUCAnalyzer._write_call_graph]: [f] is the text written so far, and
    every main program gets a traversal with a [visited] set of its own. *)
Definition _write_call_graph (depth : nat) (self : FANUCAnalyzer) (f : list string)
    : option (list string) :=
  let f := f ++ [rule 80 +:+ line_end; "CALL GRAPH ANALYSIS" +:+ line_end;
                 rule 80 +:+ line_end +:+ line_end] in
  for_each (fun main_prog f =>
              match _write_call_tree depth (call_graph self) main_prog 1
                      {| visited := ∅; written := f ++ [main_prog +:+ line_end];
                         added := [] |} with
              | Some st => Some (written st ++ [line_end])
              | None => None
              end)
           (sorted (main_programs (programs self))) f.

End Report.

(** ** Vocabulary of the further statements *)

Module Terms.
Import PyStr Re Analyzer Aggregator Flow Views.

(** [a] calls [b] in the call graph. *)
Definition calls_to (graph : gmap string (list string)) (a b : string) : Prop :=
  ∃ callees, graph !! a = Some callees ∧ b ∈ callees.

(** What a finished call of [_write_call_tree] on [prog] has done: nothing
    is forgotten, [prog] is visited, and every name it newly visited is
    reachable from [prog] and has all its callees visited. *)
Definition finished (graph : gmap string (list string)) (prog : string)
    (st st' : tree_state) : Prop :=
  visited st ⊆ visited st' ∧ prog ∈ visited st'
  ∧ ∀ x, x ∈ visited st' → x ∉ visited st →
         rtc (calls_to graph) prog x ∧ ∀ y, calls_to graph x y → y ∈ visited st'.

(** The label ids of a [labels] list. *)
Definition label_ids (ls : list (N * string * nat)) : list N := (fun l => l.1.1) <$> ls.

(** The line numbers of a list of entries that end with one. *)
Definition line_numbers {A} (ls : list (A * nat)) : list nat := snd <$> ls.

(** The label a raw line carries for the per-program parse: its id and
    alias, when the line is not skipped and the label pattern is found. *)
Definition labelled (raw : string) : option (N * string) :=
  let line := strip raw in
  if skipped line then None
  else (fun m => (int (group_or_empty 1 m), group_or_empty 2 m)) <$> search label_re line.

(** The stripped lines of a region that are neither empty nor comments. *)
Definition kept_lines (lines : list string) : list string :=
  List.filter (fun line => negb (skipped line)) (strip <$> lines).

(** Strictly increasing line numbers, all below [bound]. *)
Definition increasing_below (bound : nat) (l : list nat) : Prop :=
  StronglySorted lt l ∧ Forall (fun i => i < bound) l.

(** The characters of a string. *)
Fixpoint chars (s : string) : list ascii :=
  match s with
  | EmptyString => []
  | String c s' => c :: chars s'
  end.

(** The keys that [_parse_attributes] can store. *)
Definition attribute_keys : list string := fst <$> patterns.

(** The product codes that [classify_program] can extract. *)
Definition product_codes : list string :=
  ["384"; "096"; "1536CC"; "005"; "017"; "140"; "180"].

End Terms.

(** * Properties *)

Import PyStr Re Analyzer Aggregator Views Terms.

(** ** The matcher: a match ends inside the text, and [finditer] has
    rounds enough *)

Lemma rep_greedy_continues p least prev s k m :
  rep_greedy p least prev s k = Some m →
  ∃ prev' s', k prev' s' = Some m
              ∧ String.length s' + least ≤ String.length s.
Proof.
  revert least prev. induction s as [|c s IH]; intros least prev; simpl.
  - destruct least; [|done]. intros H. exists prev, "". split; [done|]. simpl. lia.
  - assert (Hstop : match least with O => k prev (String c s) | S _ => None end = Some m →
                    ∃ prev' s', k prev' s' = Some m
                                ∧ String.length s' + least ≤ S (String.length s)).
    { destruct least; [|done]. intros H. exists prev, (String c s). split; [done|].
      simpl. lia. }
    destruct (p c); [|done].
    destruct (rep_greedy p (Nat.pred least) (Some c) s k) eqn:Hrec; [|done].
    intros [= <-]. destruct (IH _ _ Hrec) as (prev' & s' & Hk & Hlen).
    exists prev', s'. split; [done|]. lia.
Qed.

Lemma rep_lazy_continues p least prev s k m :
  rep_lazy p least prev s k = Some m →
  ∃ prev' s', k prev' s' = Some m
              ∧ String.length s' + least ≤ String.length s.
Proof.
  revert least prev. induction s as [|c s IH]; intros least prev; simpl.
  - destruct least; [|done]. destruct (k prev "") eqn:Hk; [|done].
    intros [= <-]. exists prev, "". split; [done|]. simpl. lia.
  - destruct (match least with O => k prev (String c s) | S _ => None end) eqn:Hstop.
    + intros [= <-]. destruct least; [|done].
      exists prev, (String c s). split; [done|]. simpl. lia.
    + destruct (p c); [|done]. intros Hrec.
      destruct (IH _ _ Hrec) as (prev' & s' & Hk & Hlen).
      exists prev', s'. split; [done|]. lia.
Qed.

(** A successful run hands the match over to its continuation at a
    position of the text that is not before the start. *)
Lemma run_continues r prev s cs k m :
  run r prev s cs k = Some m →
  ∃ prev' s' cs', k prev' s' cs' = Some m ∧ String.length s' ≤ String.length s.
Proof.
  revert prev s cs k. induction r as [|p|a IHa b IHb|a IHa b IHb|a IHa|g least p|i a IHa|];
    intros prev s cs k; simpl.
  - intros H. by exists prev, s, cs.
  - destruct s as [|c s]; [done|]. destruct (p c); [|done].
    intros H. exists (Some c), s, cs. split; [done|]. simpl. lia.
  - intros H. destruct (IHa _ _ _ _ H) as (prev1 & s1 & cs1 & H1 & L1).
    destruct (IHb _ _ _ _ H1) as (prev2 & s2 & cs2 & H2 & L2).
    exists prev2, s2, cs2. split; [done|]. lia.
  - destruct (run a prev s cs k) eqn:Ha.
    + intros [= <-]. by apply IHa in Ha.
    + apply IHb.
  - destruct (run a prev s cs k) eqn:Ha.
    + intros [= <-]. by apply IHa in Ha.
    + intros H. by exists prev, s, cs.
  - intros H.
    assert (∃ prev' s', k prev' s' cs = Some m
                        ∧ String.length s' + least ≤ String.length s)
      as (prev' & s' & Hk & Hlen).
    { destruct g; [by apply rep_greedy_continues in H|by apply rep_lazy_continues in H]. }
    exists prev', s', cs. split; [done|]. lia.
  - intros H. destruct (IHa _ _ _ _ H) as (prev1 & s1 & cs1 & H1 & L1).
    by exists prev1, s1, ((i, consumed s s1) :: cs1).
  - destruct (word_boundary prev s); [|done]. intros H. by exists prev, s, cs.
Qed.

(** For a pattern that cannot match the empty string the position is
    strictly after the start. *)
Lemma run_consumes r prev s cs k m :
  consumes r = true →
  run r prev s cs k = Some m →
  ∃ prev' s' cs', k prev' s' cs' = Some m ∧ String.length s' < String.length s.
Proof.
  revert prev s cs k. induction r as [|p|a IHa b IHb|a IHa b IHb|a IHa|g least p|i a IHa|];
    intros prev s cs k; simpl; try done.
  - intros _. destruct s as [|c s]; [done|]. destruct (p c); [|done].
    intros H. exists (Some c), s, cs. split; [done|]. simpl. lia.
  - intros Hc H. apply orb_true_iff in Hc as [Hc|Hc].
    + destruct (IHa _ _ _ _ Hc H) as (prev1 & s1 & cs1 & H1 & L1).
      destruct (run_continues _ _ _ _ _ _ H1) as (prev2 & s2 & cs2 & H2 & L2).
      exists prev2, s2, cs2. split; [done|]. lia.
    + destruct (run_continues _ _ _ _ _ _ H) as (prev1 & s1 & cs1 & H1 & L1).
      destruct (IHb _ _ _ _ Hc H1) as (prev2 & s2 & cs2 & H2 & L2).
      exists prev2, s2, cs2. split; [done|]. lia.
  - intros Hc. apply andb_true_iff in Hc as [Hca Hcb].
    destruct (run a prev s cs k) eqn:Ha.
    + intros [= <-]. by apply IHa in Ha.
    + by apply IHb.
  - intros Hc H. destruct least as [|least]; [done|].
    assert (∃ prev' s', k prev' s' cs = Some m
                        ∧ String.length s' + S least ≤ String.length s)
      as (prev' & s' & Hk & Hlen).
    { destruct g; [by apply rep_greedy_continues in H|by apply rep_lazy_continues in H]. }
    exists prev', s', cs. split; [done|]. lia.
  - intros Hc H. destruct (IHa _ _ _ _ Hc H) as (prev1 & s1 & cs1 & H1 & L1).
    by exists prev1, s1, ((i, consumed s s1) :: cs1).
Qed.

Lemma search_from_consumes r prev s m :
  consumes r = true → search_from r prev s = Some m →
  String.length (rest m) < String.length s.
Proof.
  intros Hc. revert prev. induction s as [|c s IH]; intros prev; simpl.
  - destruct (run r prev "" [] finish) eqn:Hrun; [|done].
    intros [= <-]. apply (run_consumes _ _ _ _ _ _ Hc) in Hrun
      as (prev' & s' & cs' & [= <-] & Hlen). simpl in *. lia.
  - destruct (run r prev (String c s) [] finish) eqn:Hrun.
    + intros [= <-]. apply (run_consumes _ _ _ _ _ _ Hc) in Hrun
        as (prev' & s' & cs' & [= <-] & Hlen). done.
    + intros H. apply IH in H. lia.
Qed.

(** More rounds than the text has characters are never used up: the
    result of [finditer] does not depend on the number of rounds. *)
Lemma finditer_from_rounds r :
  consumes r = true →
  ∀ n n' prev s, String.length s < n → String.length s < n' →
  finditer_from n r prev s = finditer_from n' r prev s.
Proof.
  intros Hc. induction n as [|n IH]; intros n' prev s Hn Hn'; [lia|].
  destruct n' as [|n']; [lia|]. simpl.
  destruct (search_from r prev s) as [m|] eqn:Hs; [|done].
  apply (search_from_consumes _ _ _ _ Hc) in Hs. f_equal. apply IH; lia.
Qed.

Lemma finditer_rounds_suffice r s extra :
  consumes r = true →
  finditer_from (S (String.length s) + extra) r None s = finditer r s.
Proof. intros Hc. unfold finditer. apply finditer_from_rounds; [done|lia..]. Qed.

Lemma bracket_re_consumes kind : consumes (bracket_re kind) = true.
Proof. unfold bracket_re. simpl. by rewrite !orb_true_r. Qed.

Lemma position_re_consumes : consumes position_re = true.
Proof. reflexivity. Qed.

(** *** The patterns on specimen lines *)

Example label_with_alias :
  (fun m => (group 1 m, group 2 m)) <$> search label_re "   1:  LBL[10:start] ;"
  = Some (Some "10", Some "start").
Proof. reflexivity. Qed.

Example label_inside_jump :
  (fun m => (group 1 m, group 2 m)) <$> search label_re "IF R[1]=1,JMP LBL[600] ;"
  = Some (Some "600", None).
Proof. reflexivity. Qed.

Example label_malformed : search label_re "LBL[20 ] LBL[x] LBL[:a]" = None.
Proof. reflexivity. Qed.

Example jump_target :
  group 1 <$> search jump_re "IF R[1]=1,JMP   LBL[600] ;" = Some (Some "600").
Proof. reflexivity. Qed.

Example guard_text :
  group 1 <$> search Flow.if_re "IF R[1]=1,JMP LBL[600] ;" = Some (Some "R[1]=1").
Proof. reflexivity. Qed.

Example end_is_a_word :
  matched (search Flow.end_re "  9:  END ;") = true
  ∧ matched (search Flow.end_re "SENDING") = false
  ∧ matched (search Flow.end_re "/END") = true.
Proof. by vm_compute. Qed.

Example operands_of_a_line :
  operands "R" "R[12:SpeedRef]=PR[7:home]+R[1]+R[x]"
  = [(12%N, "SpeedRef"); (7%N, "home"); (1%N, "")].
Proof. reflexivity. Qed.

Example main_code_region_is_shortest :
  mn_section (Inputs.text ["/PROG X"; "/MN"; "LBL[1]"; "/POS"; "P[1]{}"; "/END"])
  = Some (Inputs.text [""; "LBL[1]"; ""]).
Proof. reflexivity. Qed.

Example strip_and_split :
  strip "  LBL[1] ;  " = "LBL[1] ;"
  ∧ split_lines (Inputs.text ["a"; ""; "b"]) = ["a"; ""; "b"]
  ∧ split_lines "" = [""].
Proof. by vm_compute. Qed.

(** ** Label extraction (C1, C2) *)

(** C1: the labels recorded by the per-program parse are meant to be the
    label definitions of the main-code region, jump targets excluded.  On a
    program whose only instruction is [JMP LBL[20]] the parse records label
    20 although nothing defines it: the label pattern is searched anywhere
    in the line and finds the marker inside the jump. *)
Theorem C1_jump_target_recorded_as_label :
  let program := parse_file ∅ "JUMP.LS" Inputs.lone_jump in
  code_lines program = ["JMP LBL[20]"]
  ∧ jumps program = [(20%N, 1)]
  ∧ labels program = [(20%N, "", 1)].
Proof. vm_compute. done. Qed.

(** C2: on the scenario [LBL[10]], [CALL SUB1], [JMP LBL[20]], [LBL[20]],
    [END] the flow graph has the two blocks 10 and 20, the parse records
    the one call to SUB1, and block 20 has no successor and ends with the
    END line, after which no block is open; but block 10 has no successor
    edge at all, where the scenario expects the edge to 20: the jump line is
    taken for a definition of label 20. *)
Theorem C2_scenario_block_10_has_no_successor :
  let flow := Flow.parse_program Inputs.flow_scenario Flow.new_flow_analyzer in
  let program := parse_file ∅ "SCENARIO.LS" Inputs.flow_scenario in
  dom (Flow.flow_nodes flow) = {[10%N; 20%N]}
  ∧ Flow.node_of flow 10 =
      Some {| Flow.label_num := 10; Flow.label_name := "";
              Flow.instructions := ["CALL SUB1"];
              Flow.successors := []; Flow.conditions := [] |}
  ∧ Flow.node_of flow 20 =
      Some {| Flow.label_num := 20; Flow.label_name := "";
              Flow.instructions := ["END"];
              Flow.successors := []; Flow.conditions := [] |}
  ∧ calls program = [("SUB1", 2)]
  ∧ (scan ["LBL[10]"; "CALL SUB1"; "JMP LBL[20]"; "LBL[20]"; "END"]).2 = None.
Proof. vm_compute. done. Qed.

(** ** Skipped lines (C10) *)

Lemma parse_code_lines_app i l1 l2 p :
  parse_code_lines i (l1 ++ l2) p
  = parse_code_lines (i + length l1) l2 (parse_code_lines i l1 p).
Proof.
  revert i p. induction l1 as [|x l1 IH]; intros i p; simpl.
  - by rewrite Nat.add_0_r.
  - rewrite IH. by rewrite Nat.add_succ_r.
Qed.

Lemma parse_code_line_skipped i raw p :
  skipped (strip raw) = true → parse_code_line i raw p = p.
Proof. intros H. unfold parse_code_line. by rewrite H. Qed.

Lemma flow_parse_line_skipped raw st :
  skipped (strip raw) = true → Flow.parse_line raw st = st.
Proof. intros H. destruct st as [self cur]. unfold Flow.parse_line. by rewrite H. Qed.

Lemma flow_parse_lines_app l1 l2 st :
  Flow.parse_lines (l1 ++ l2) st = Flow.parse_lines l2 (Flow.parse_lines l1 st).
Proof. unfold Flow.parse_lines. apply fold_left_app. Qed.

(** C10: a main-code line that is empty once stripped, or whose stripped
    form starts with the comment marker, leaves the program and the flow
    scan exactly as they were: nothing is appended to the code lines and no
    label, jump, call, operand or block instruction comes from it.  Within a
    whole region the line counts like an empty line for the per-program
    parse, and like no line at all for the flow scan. *)
Theorem C10_skipped_line_extracts_nothing (raw : string) :
  strip raw = "" ∨ startswith "!" (strip raw) = true →
  (∀ i program, parse_code_line i raw program = program)
  ∧ (∀ st, Flow.parse_line raw st = st)
  ∧ (∀ i before after program,
       parse_code_lines i (before ++ raw :: after) program
       = parse_code_lines i (before ++ "" :: after) program)
  ∧ (∀ before after st,
       Flow.parse_lines (before ++ raw :: after) st
       = Flow.parse_lines (before ++ after) st).
Proof.
  intros H.
  assert (Hs : skipped (strip raw) = true).
  { unfold skipped. destruct H as [-> | ->]; [done | apply orb_true_r]. }
  repeat split.
  - intros. by apply parse_code_line_skipped.
  - intros. by apply flow_parse_line_skipped.
  - intros. rewrite !parse_code_lines_app. simpl.
    rewrite parse_code_line_skipped by done.
    by rewrite (parse_code_line_skipped _ "") by done.
  - intros. rewrite !flow_parse_lines_app.
    change (Flow.parse_lines (raw :: after) ?s)
      with (Flow.parse_lines after (Flow.parse_line raw s)).
    by rewrite flow_parse_line_skipped.
Qed.

Lemma C10_witness :
  let raw := "  ! LBL[5] JMP LBL[7] CALL SUB R[1:x]  " in
  (strip raw = "" ∨ startswith "!" (strip raw) = true)
  ∧ ∀ i program, parse_code_line i raw program = program.
Proof.
  split.
  - right. reflexivity.
  - apply (C10_skipped_line_extracts_nothing "  ! LBL[5] JMP LBL[7] CALL SUB R[1:x]  ").
    right. reflexivity.
Defined.

(** ** Which step writes which attribute of a program *)

Lemma fold_left_invariant {A B} (P : B → Prop) (f : B → A → B) (l : list A) (b : B) :
  P b → (∀ b x, P b → P (f b x)) → P (fold_left f l b).
Proof. intros Hb Hf. revert b Hb. induction l; simpl; auto. Qed.

Lemma fold_left_related {A B} (R : B → B → Prop) (f : B → A → B) (l : list A) b b' :
  R b b' → (∀ b b' x, R b b' → R (f b x) (f b' x)) →
  R (fold_left f l b) (fold_left f l b').
Proof. intros Hb Hf. revert b b' Hb. induction l; simpl; auto. Qed.

Lemma header_frame p c :
  same_attributes p (_parse_header p c) ∧ same_code p (_parse_header p c)
  ∧ same_positions p (_parse_header p c).
Proof. unfold _parse_header. by destruct (search _ _). Qed.

Lemma parse_attribute_frame t p e :
  same_code p (parse_attribute t p e) ∧ same_positions p (parse_attribute t p e)
  ∧ name (parse_attribute t p e) = name p.
Proof.
  unfold parse_attribute. destruct e as [key pattern].
  destruct (search _ _); [|done]. by destruct (in_list _ _).
Qed.

Lemma attributes_frame p c :
  same_code p (_parse_attributes p c) ∧ same_positions p (_parse_attributes p c)
  ∧ name (_parse_attributes p c) = name p.
Proof.
  unfold _parse_attributes. destruct (search _ _); [|done].
  apply (fold_left_invariant
           (fun q => same_code p q ∧ same_positions p q ∧ name q = name p)); [done|].
  intros q e (Hc & Hp & Hn).
  destruct (parse_attribute_frame (group_or_empty 1 m) q e) as (Hc' & Hp' & Hn').
  unfold same_code, same_positions in *. repeat split; congruence.
Qed.

Lemma parse_code_line_frame i raw p :
  same_attributes p (parse_code_line i raw p) ∧ same_positions p (parse_code_line i raw p)
  ∧ name (parse_code_line i raw p) = name p.
Proof.
  unfold parse_code_line. destruct (skipped _); [done|].
  destruct (search label_re _); [destruct (in_error_window _)|];
    destruct (search jump_re _); destruct (search call_re _); done.
Qed.

Lemma parse_code_lines_frame i lines p :
  same_attributes p (parse_code_lines i lines p)
  ∧ same_positions p (parse_code_lines i lines p)
  ∧ name (parse_code_lines i lines p) = name p.
Proof.
  revert i p. induction lines as [|raw lines IH]; intros i p; [done|]. simpl.
  destruct (IH (S i) (parse_code_line i raw p)) as (Ha & Hp & Hn).
  destruct (parse_code_line_frame i raw p) as (Ha' & Hp' & Hn').
  unfold same_attributes, same_positions in *. repeat split; congruence.
Qed.

Lemma code_frame p c :
  same_attributes p (_parse_code p c) ∧ same_positions p (_parse_code p c)
  ∧ name (_parse_code p c) = name p.
Proof.
  unfold _parse_code. destruct (mn_section c); [|done]. apply parse_code_lines_frame.
Qed.

Lemma positions_frame p c :
  same_attributes p (_parse_positions p c) ∧ same_code p (_parse_positions p c)
  ∧ name (_parse_positions p c) = name p.
Proof.
  unfold _parse_positions. destruct (search _ _); [|done].
  apply (fold_left_invariant
           (fun q => same_attributes p q ∧ same_code p q ∧ name q = name p)); [done|].
  intros q e (Ha & Hc & Hn). done.
Qed.

Lemma classify_frame p :
  same_attributes p (classify_program p) ∧ same_code p (classify_program p)
  ∧ same_positions p (classify_program p).
Proof.
  unfold classify_program.
  destruct (matched _).
  { simpl. by destruct (existsb _ _). }
  destruct (existsb _ _).
  { by destruct (search _ _). }
  destruct (in_list _ _); [done|]. by destruct (_ || _).
Qed.

Lemma statistics_frame p :
  same_attributes p (calculate_statistics p) ∧ same_code p (calculate_statistics p)
  ∧ same_positions p (calculate_statistics p).
Proof. done. Qed.

(** The three regions of the program returned by [parse_file] are those of
    the program after the step of each region. *)
Lemma parse_file_regions programs filepath bytes :
  let content := read bytes in
  let p0 := new_program (basename filepath) in
  let p1 := _parse_header p0 content in
  let p2 := _parse_attributes p1 content in
  let p3 := _parse_code p2 content in
  let p := parse_file programs filepath bytes in
  attributes p = attributes p2 ∧ code_part p = code_part p3
  ∧ positions p = positions (_parse_positions p3 content)
  ∧ attributes p1 = ∅ ∧ code_part p2 = code_part p0 ∧ positions p3 = [].
Proof.
  intros content p0 p1 p2 p3 p. subst p. unfold parse_file.
  fold content. fold p0. fold p1. fold p2. fold p3.
  set (p4 := _parse_positions p3 content). set (p5 := classify_program p4).
  destruct (header_frame p0 content) as (Ha1 & Hc1 & Hp1).
  destruct (attributes_frame p1 content) as (Hc2 & Hp2 & _).
  destruct (code_frame p2 content) as (Ha3 & Hp3 & _).
  destruct (positions_frame p3 content) as (Ha4 & Hc4 & _).
  destruct (classify_frame p4) as (Ha5 & Hc5 & Hp5).
  destruct (statistics_frame p5) as (Ha6 & Hc6 & Hp6).
  unfold same_attributes, same_code, same_positions in *.
  fold p1 in Ha1, Hc1, Hp1. fold p2 in Hc2, Hp2. fold p3 in Ha3, Hp3.
  fold p4 in Ha4, Hc4. fold p5 in Ha5, Hc5, Hp5.
  repeat split; try congruence.
  - by rewrite Ha1.
  - by rewrite Hp3, Hp2, Hp1.
Qed.

(** ** The error window (C4) *)

Lemma in_error_window_spec n :
  in_error_window n = true ↔ (500 ≤ n < 800)%N.
Proof.
  unfold in_error_window. rewrite andb_true_iff, N.leb_le, N.ltb_lt. done.
Qed.

Lemma error_labels_of_app l1 l2 :
  error_labels_of (l1 ++ l2) = error_labels_of l1 ++ error_labels_of l2.
Proof. unfold error_labels_of. apply omap_app. Qed.

Lemma parse_code_line_errors i raw p :
  errors_follow_labels p → errors_follow_labels (parse_code_line i raw p).
Proof.
  unfold errors_follow_labels, parse_code_line. intros H.
  destruct (skipped _); [done|].
  destruct (search label_re _) as [m|].
  - destruct (in_error_window _) eqn:Hw;
      destruct (search jump_re _); destruct (search call_re _); simpl;
      rewrite error_labels_of_app, H; unfold error_labels_of; simpl;
      rewrite Hw; by rewrite ?app_nil_r.
  - destruct (search jump_re _); destruct (search call_re _); done.
Qed.

Lemma parse_code_lines_errors i lines p :
  errors_follow_labels p → errors_follow_labels (parse_code_lines i lines p).
Proof.
  revert i p. induction lines as [|raw lines IH]; intros i p H; [done|].
  simpl. apply IH. by apply parse_code_line_errors.
Qed.

Lemma errors_follow_labels_same p q :
  code_part q = code_part p → errors_follow_labels p → errors_follow_labels q.
Proof.
  unfold errors_follow_labels, code_part. intros H Hp.
  injection H as _ Hl He _ _ _ _. by rewrite Hl, He.
Qed.

Lemma parse_file_errors programs filepath bytes :
  errors_follow_labels (parse_file programs filepath bytes).
Proof.
  destruct (parse_file_regions programs filepath bytes) as (_ & Hc & _ & _ & Hc2 & _).
  eapply errors_follow_labels_same; [exact Hc|].
  unfold _parse_code. destruct (mn_section _).
  - apply parse_code_lines_errors.
    eapply errors_follow_labels_same; [exact Hc2|]. done.
  - eapply errors_follow_labels_same; [exact Hc2|]. done.
Qed.

(** *** The flow scan, step by step *)

Lemma alter_label_num (f : Flow.FlowNode → Flow.FlowNode) ref (l : list Flow.FlowNode) :
  (∀ n, Flow.label_num (f n) = Flow.label_num n) →
  Flow.label_num <$> alter f ref l = Flow.label_num <$> l.
Proof.
  intros Hf. revert ref. induction l as [|x l IH]; intros [|ref]; simpl; try done.
  - by rewrite Hf.
  - f_equal. apply IH.
Qed.

Lemma update_node_labels ref f self :
  (∀ n, Flow.label_num (f n) = Flow.label_num n) →
  node_labels (Flow.update_node ref f self) = node_labels self.
Proof. intros Hf. unfold node_labels. simpl. by apply alter_label_num. Qed.

Lemma flow_parse_line_define raw self cur n :
  defines raw = Some n →
  ∃ nm, Flow.parse_line raw (self, cur) = Flow.open_node n nm self.
Proof.
  unfold defines, Flow.parse_line.
  destruct (skipped _); [done|].
  destruct (search label_re _) as [m|]; [|done].
  intros [= <-]. by eexists.
Qed.

Lemma flow_parse_line_other raw self cur :
  defines raw = None →
  ∃ self' cur',
    Flow.parse_line raw (self, cur) = (self', cur')
    ∧ Flow.flow_nodes self' = Flow.flow_nodes self
    ∧ Flow.error_nodes self' = Flow.error_nodes self
    ∧ node_labels self' = node_labels self.
Proof.
  unfold defines, Flow.parse_line.
  destruct (skipped _); [intros _; by exists self, cur|].
  destruct (search label_re _) as [m|]; [done|]. intros _.
  destruct cur as [ref|]; [|by exists self, None].
  destruct (search jump_re _); [destruct (search Flow.if_re _)|];
    destruct (matched _); eexists _, _; (split; [reflexivity|]);
    (split; [done|]); (split; [done|]); by rewrite !update_node_labels.
Qed.

Lemma open_node_labels n nm self :
  node_labels (Flow.open_node n nm self).1 = node_labels self ++ [n].
Proof. unfold node_labels. simpl. by rewrite fmap_app. Qed.

Lemma open_node_errors n nm self :
  Flow.error_nodes (Flow.open_node n nm self).1
  = Flow.error_nodes self ++ List.filter in_error_window [n].
Proof.
  simpl. destruct (in_error_window n) eqn:Hw.
  - apply in_error_window_spec in Hw.
    destruct (N.eqb_spec n 10) as [->|]; [lia|].
    destruct (N.eqb_spec n 20) as [->|]; [lia|]. done.
  - rewrite andb_false_r. by rewrite app_nil_r.
Qed.

Lemma flow_parse_line_errors raw st :
  Flow.error_nodes st.1 = List.filter in_error_window (node_labels st.1) →
  Flow.error_nodes (Flow.parse_line raw st).1
  = List.filter in_error_window (node_labels (Flow.parse_line raw st).1).
Proof.
  destruct st as [self cur]. intros H. simpl in H.
  destruct (defines raw) as [n|] eqn:Hd.
  - destruct (flow_parse_line_define raw self cur n Hd) as [nm ->].
    rewrite open_node_errors, open_node_labels, List.filter_app. by rewrite H.
  - destruct (flow_parse_line_other raw self cur Hd) as (self' & cur' & -> & _ & He & Hl).
    simpl. by rewrite He, Hl.
Qed.

Lemma flow_parse_lines_errors lines st :
  Flow.error_nodes st.1 = List.filter in_error_window (node_labels st.1) →
  Flow.error_nodes (Flow.parse_lines lines st).1
  = List.filter in_error_window (node_labels (Flow.parse_lines lines st).1).
Proof.
  unfold Flow.parse_lines. intros H.
  apply (fold_left_invariant
           (fun st => Flow.error_nodes st.1
                      = List.filter in_error_window (node_labels st.1))); [done|].
  intros st' raw. apply flow_parse_line_errors.
Qed.

(** C4: a label is an error label exactly when its id lies in the window
    from 500 (included) to 800 (excluded); 499 and 800 are outside, 500 and
    799 inside.  In the per-program parse the error labels are the recorded
    labels whose id is in the window, and in the flow scan the error nodes
    are the ids of the created nodes that are in the window: nothing but
    the numeric id decides. *)
Theorem C4_error_window :
  (∀ n, in_error_window n = true ↔ (500 ≤ n < 800)%N)
  ∧ in_error_window 499 = false ∧ in_error_window 500 = true
  ∧ in_error_window 799 = true ∧ in_error_window 800 = false
  ∧ (∀ programs filepath bytes,
       let program := parse_file programs filepath bytes in
       errors program = error_labels_of (labels program)
       ∧ ∀ n name,
           (n, name) ∈ errors program
           ↔ (∃ i, (n, name, i) ∈ labels program) ∧ (500 ≤ n < 800)%N)
  ∧ (∀ bytes,
       let flow := Flow.parse_program bytes Flow.new_flow_analyzer in
       Flow.error_nodes flow = List.filter in_error_window (node_labels flow)
       ∧ ∀ n, n ∈ Flow.error_nodes flow
              ↔ n ∈ node_labels flow ∧ (500 ≤ n < 800)%N).
Proof.
  split; [exact in_error_window_spec|].
  do 4 (split; [reflexivity|]).
  split.
  - intros programs filepath bytes program.
    pose proof (parse_file_errors programs filepath bytes) as H.
    fold program in H. unfold errors_follow_labels in H.
    split; [exact H|].
    intros n name. rewrite H. unfold error_labels_of.
    rewrite list_elem_of_omap. split.
    + intros ([[n' name'] i] & Hin & Hs). simpl in Hs.
      destruct (in_error_window n') eqn:Hw; [|done].
      injection Hs as -> ->. split; [by exists i|].
      by apply in_error_window_spec.
    + intros ([i Hin] & Hw). exists (n, name, i). split; [done|]. simpl.
      apply in_error_window_spec in Hw. by rewrite Hw.
  - intros bytes flow.
    assert (H : Flow.error_nodes flow
                = List.filter in_error_window (node_labels flow)).
    { subst flow. unfold Flow.parse_program.
      destruct (mn_section _); [|done].
      by apply flow_parse_lines_errors. }
    split; [exact H|].
    intros n. rewrite H, list_elem_of_In, List.filter_In, <- list_elem_of_In.
    by rewrite in_error_window_spec.
Qed.

(** ** Missing sections (C8) *)

(** A pattern that starts with a literal finds nothing in a text that does
    not contain the literal. *)
Lemma run_Lit_needs_prefix l prev s cs k :
  String.prefix l s = false → run (Lit l) prev s cs k = None.
Proof.
  revert prev s. induction l as [|c l IH]; intros prev s; simpl.
  - by destruct s.
  - destruct s as [|c' s']; [done|]. intros H. simpl in H.
    unfold is_char. destruct (ascii_dec c c') as [->|Hne].
    + rewrite Ascii.eqb_refl. by apply IH.
    + apply Ascii.eqb_neq in Hne. by rewrite Hne.
Qed.

Lemma contains_false_inv l c s :
  contains l (String c s) = false → String.prefix l (String c s) = false ∧ contains l s = false.
Proof. simpl. intros H. by apply orb_false_iff in H. Qed.

Lemma search_needs_literal l r prev s :
  contains l s = false → search_from (Seq (Lit l) r) prev s = None.
Proof.
  revert prev. induction s as [|c s IH]; intros prev H.
  - simpl in H. apply orb_false_iff in H as [H _].
    simpl. by rewrite run_Lit_needs_prefix.
  - apply contains_false_inv in H as [Hp Hc].
    change (search_from (Seq (Lit l) r) prev (String c s))
      with (match run (Lit l) prev (String c s) []
                    (fun prev' s' cs' => run r prev' s' cs' finish) with
            | Some m => Some m
            | None => search_from (Seq (Lit l) r) (Some c) s
            end).
    rewrite run_Lit_needs_prefix by done. by apply IH.
Qed.

(** Each region step reads, of the program it receives, only the region
    it writes. *)
Lemma attributes_local p q c :
  attributes p = attributes q →
  attributes (_parse_attributes p c) = attributes (_parse_attributes q c).
Proof.
  intros H. unfold _parse_attributes. destruct (search _ _); [|done].
  apply (fold_left_related (fun p q => attributes p = attributes q)); [done|].
  intros p' q' [key pattern] H'. unfold parse_attribute.
  destruct (search _ _); [|done]. destruct (in_list _ _); simpl; by rewrite H'.
Qed.

Lemma code_line_local i raw p q :
  code_part p = code_part q →
  code_part (parse_code_line i raw p) = code_part (parse_code_line i raw q).
Proof.
  unfold code_part. intros H.
  injection H as H1 H2 H3 H4 H5 H6 H7 H8 H9 H10 H11.
  unfold parse_code_line. destruct (skipped _); [congruence|].
  destruct (search label_re _); [destruct (in_error_window _)|];
    destruct (search jump_re _); destruct (search call_re _); simpl; congruence.
Qed.

Lemma code_local p q c :
  code_part p = code_part q →
  code_part (_parse_code p c) = code_part (_parse_code q c).
Proof.
  intros H. unfold _parse_code. destruct (mn_section c) as [code_text|]; [|done].
  generalize 0. revert p q H.
  induction (split_lines code_text) as [|raw lines IH]; intros p q H i; [done|].
  simpl. apply IH. by apply code_line_local.
Qed.

Lemma positions_local p q c :
  positions p = positions q →
  positions (_parse_positions p c) = positions (_parse_positions q c).
Proof.
  intros H. unfold _parse_positions. destruct (search _ _); [|done].
  apply (fold_left_related (fun p q => positions p = positions q)); [done|].
  intros p' q' x H'. simpl. by rewrite H'.
Qed.

(** Each region of the program returned by [parse_file] is what the
    region's own step extracts from the text, starting from a new program. *)
Lemma parse_file_by_region programs filepath bytes :
  let content := read bytes in
  let program := parse_file programs filepath bytes in
  attributes program = attributes (_parse_attributes (new_program "") content)
  ∧ code_part program = code_part (_parse_code (new_program "") content)
  ∧ positions program = positions (_parse_positions (new_program "") content).
Proof.
  intros content program.
  destruct (parse_file_regions programs filepath bytes)
    as (Ha & Hc & Hp & Ha1 & Hc2 & Hp3).
  fold content in Ha, Hc, Hp, Ha1, Hc2, Hp3. fold program in Ha, Hc, Hp.
  split; [|split].
  - rewrite Ha. apply attributes_local. by rewrite Ha1.
  - rewrite Hc. apply code_local. by rewrite Hc2.
  - rewrite Hp. apply positions_local. by rewrite Hp3.
Qed.



(** ** Determinism of the statistics (C9) *)

Lemma statistics_defined p :
  Forall (fun key => is_Some (statistics (calculate_statistics p) !! key)) statistics_keys.
Proof.
  unfold statistics_keys, calculate_statistics. simpl.
  repeat (apply Forall_cons; split; [eexists; simplify_map_eq; reflexivity|]).
  constructor.
Qed.

Lemma statistics_local p q :
  code_part p = code_part q → positions p = positions q →
  statistics (calculate_statistics p) = statistics (calculate_statistics q).
Proof.
  unfold code_part. intros H Hp.
  injection H as H1 H2 H3 H4 H5 H6 H7 H8 H9 H10 H11.
  unfold calculate_statistics. simpl. congruence.
Qed.

Lemma parse_file_statistics programs filepath bytes :
  ∃ p, parse_file programs filepath bytes = calculate_statistics p
       ∧ code_part p = code_part (_parse_code (new_program "") (read bytes))
       ∧ positions p = positions (_parse_positions (new_program "") (read bytes)).
Proof.
  destruct (parse_file_by_region programs filepath bytes) as (_ & Hc & Hp).
  eexists. split; [reflexivity|]. split.
  - rewrite <- Hc. symmetry. apply statistics_frame.
  - rewrite <- Hp. symmetry. apply statistics_frame.
Qed.

(** C9: the statistics of a parse depend on the bytes of the file alone.
    Two runs of [parse_file] on the same bytes produce the same statistics
    dictionary, whatever programs the parser object already holds in either
    run (and even under different file paths); every one of the eleven
    statistics fields has a value, the same in both runs. *)
Theorem C9_statistics_deterministic programs1 programs2 filepath1 filepath2 bytes :
  let run1 := parse_file programs1 filepath1 bytes in
  let run2 := parse_file programs2 filepath2 bytes in
  statistics run1 = statistics run2
  ∧ Forall (fun key => ∃ v : nat, statistics run1 !! key = Some v
                                  ∧ statistics run2 !! key = Some v)
           statistics_keys.
Proof.
  intros run1 run2.
  destruct (parse_file_statistics programs1 filepath1 bytes) as (p1 & E1 & Hc1 & Hp1).
  destruct (parse_file_statistics programs2 filepath2 bytes) as (p2 & E2 & Hc2 & Hp2).
  assert (H : statistics run1 = statistics run2).
  { subst run1 run2. rewrite E1, E2. apply statistics_local; congruence. }
  split; [exact H|].
  rewrite <- H. subst run1. rewrite E1.
  eapply Forall_impl; [apply statistics_defined|].
  intros key [v Hv]. by exists v.
Qed.

(** ** Classification by name (C5) *)

Lemma classify_program_type p :
  program_type (classify_program p)
  = if rule_main (name p) then main
    else if rule_subprogram (name p) then subprogram
    else if rule_utility (name p) then utility
    else if rule_system (name p) then system
    else other.
Proof.
  unfold classify_program, rule_main, rule_subprogram, rule_utility, rule_system.
  destruct (matched _).
  { simpl. by destruct (existsb _ _). }
  destruct (existsb _ _).
  { by destruct (search _ _). }
  destruct (in_list _ _); [done|]. by destruct (_ || _).
Qed.

Lemma is_char_true c x : is_char c x = true → x = c.
Proof. unfold is_char. intros H. by apply Ascii.eqb_eq in H. Qed.

Lemma rule_main_spec name :
  rule_main name = true
  ↔ ∃ d1 d2 d3 rest,
      is_digit d1 = true ∧ is_digit d2 = true ∧ is_digit d3 = true
      ∧ name = main_name d1 d2 d3 rest.
Proof.
  unfold rule_main, match_start, main_name. split.
  - intros H.
    do 5 (destruct name as [|? name]; [done|];
          cbn [main_name_re Cat Lit run] in H;
          match type of H with
          | context [is_char ?c ?x] =>
              destruct (is_char c x) eqn:?E; [apply is_char_true in E; subst|done]
          end).
    destruct name as [|d1 name]; [done|]. cbn [run] in H.
    destruct (is_digit d1) eqn:H1; [|done].
    destruct name as [|d2 name]; [done|]. cbn [run] in H.
    destruct (is_digit d2) eqn:H2; [|done].
    destruct name as [|d3 name]; [done|]. cbn [run] in H.
    destruct (is_digit d3) eqn:H3; [|done].
    by exists d1, d2, d3, name.
  - intros (d1 & d2 & d3 & rest & H1 & H2 & H3 & ->).
    cbv [String.append]. unfold main_name_re. cbn [Cat Lit run].
    unfold is_char. rewrite !Ascii.eqb_refl. by rewrite H1, H2, H3.
Qed.

(** C5: a program is classified as Main exactly when its name starts with
    A_1PA followed by three digits; so A_1PA001 is Main, and a name with
    only two digits after the prefix, such as A_1PA00, is not (it falls
    through to Other).  The classification assigns one tag out of the five,
    that of the first rule whose condition holds, and Other when none
    does. *)
Theorem C5_classification_by_name :
  (∀ p, program_type (classify_program p) = main
        ↔ ∃ d1 d2 d3 rest,
            is_digit d1 = true ∧ is_digit d2 = true ∧ is_digit d3 = true
            ∧ name p = main_name d1 d2 d3 rest)
  ∧ (∀ p, program_type (classify_program (set_name "A_1PA001" p)) = main)
  ∧ (∀ p d1 d2,
       program_type (classify_program (set_name ("A_1PA" +:+ String d1 (String d2 "")) p))
       ≠ main)
  ∧ (∀ p, program_type (classify_program (set_name "A_1PA00" p)) = other)
  ∧ (∀ p, program_type (classify_program p) ∈ [main; subprogram; utility; system; other])
  ∧ (∀ p, program_type (classify_program p)
          = if rule_main (name p) then main
            else if rule_subprogram (name p) then subprogram
            else if rule_utility (name p) then utility
            else if rule_system (name p) then system
            else other).
Proof.
  assert (Hmain : ∀ p, program_type (classify_program p) = main
                       ↔ rule_main (name p) = true).
  { intros p. rewrite classify_program_type.
    destruct (rule_main _); [done|].
    destruct (rule_subprogram _); [done|].
    destruct (rule_utility _); [done|]. by destruct (rule_system _). }
  split; [|split; [|split; [|split; [|split]]]].
  - intros p. rewrite Hmain. apply rule_main_spec.
  - intros p. by rewrite classify_program_type.
  - intros p d1 d2. rewrite Hmain, rule_main_spec. simpl.
    intros (d1' & d2' & d3' & rest & _ & _ & _ & H).
    unfold main_name in H. cbv [String.append] in H. discriminate H.
  - intros p. by rewrite classify_program_type.
  - intros p. rewrite classify_program_type, !elem_of_cons.
    destruct (rule_main _); [auto|].
    destruct (rule_subprogram _); [auto|].
    destruct (rule_utility _); [auto|].
    destruct (rule_system _); auto 10.
  - apply classify_program_type.
Qed.

(** ** Alias tables (C6) *)

Lemma add_alias_spec entry (table : gmap N (gset string)) n a :
  a ∈ aliases_of (add_alias entry table) n
  ↔ a ∈ aliases_of table n ∨ (entry = (n, a) ∧ a ≠ "").
Proof.
  destruct entry as [num name]. unfold add_alias, aliases_of.
  destruct (String.eqb_spec name "") as [->|Hne].
  - split; [by left|]. intros [H|[[= _ <-] H]]; done.
  - destruct (decide (num = n)) as [->|Hn].
    + rewrite lookup_insert_eq. simpl. rewrite elem_of_union, elem_of_singleton.
      split; intros [H|H]; auto.
      * subst. by right.
      * destruct H as [[= <-] _]. by right.
    + rewrite lookup_insert_ne by done.
      split; [by left|]. intros [H|[[= H _] _]]; done.
Qed.

Lemma set_fold_add_alias (s : gset (N * string)) (table : gmap N (gset string)) n a :
  a ∈ aliases_of (set_fold add_alias table s) n
  ↔ a ∈ aliases_of table n ∨ ((n, a) ∈ s ∧ a ≠ "").
Proof.
  apply (set_fold_ind_L
           (fun (r : gmap N (gset string)) (X : gset (N * string)) =>
              a ∈ aliases_of r n ↔ a ∈ aliases_of table n ∨ ((n, a) ∈ X ∧ a ≠ ""))).
  - set_solver.
  - intros x X r Hx IH. rewrite add_alias_spec, IH.
    rewrite elem_of_union, elem_of_singleton. clear. naive_solver.
Qed.

Lemma build_alias_table_spec (operands_of : FANUCProgram → gset (N * string))
    (programs : gmap string FANUCProgram) (table : gmap N (gset string)) n a :
  a ∈ aliases_of (build_alias_table operands_of programs table) n
  ↔ a ∈ aliases_of table n
    ∨ ∃ k p, programs !! k = Some p ∧ (n, a) ∈ operands_of p ∧ a ≠ "".
Proof.
  unfold build_alias_table.
  apply (map_fold_weak_ind
           (fun (r : gmap N (gset string)) (m : gmap string FANUCProgram) =>
              a ∈ aliases_of r n
              ↔ a ∈ aliases_of table n
                ∨ ∃ k p, m !! k = Some p ∧ (n, a) ∈ operands_of p ∧ a ≠ "")).
  - split; [by left|]. intros [H|(k & p & H & _)]; [done|].
    by rewrite lookup_empty in H.
  - intros k p m r Hk IH. rewrite set_fold_add_alias, IH. split.
    + intros [[H|(k' & p' & Hk' & H)]|H]; [by left| |].
      * right. exists k', p'. split; [|done].
        rewrite lookup_insert_ne; [done|]. intros ->. by rewrite Hk in Hk'.
      * right. exists k, p. by rewrite lookup_insert_eq.
    + intros [H|(k' & p' & Hk' & H)]; [by left; left|].
      destruct (decide (k = k')) as [->|Hne].
      * rewrite lookup_insert_eq in Hk'. injection Hk' as ->. by right.
      * rewrite lookup_insert_ne in Hk' by done. left. right. by exists k', p'.
Qed.

(** C6: the global register table keeps every alias.  When one program
    of the collection uses register [n] under the alias [a1] and another
    uses it under [a2], the entry of [n] in the table built by
    [_build_register_map] holds both: an id seen with several aliases is
    never reduced to one of them. *)
Theorem C6_register_aliases_all_retained (self : FANUCAnalyzer)
    (k1 k2 : string) (p1 p2 : FANUCProgram) (n : N) (a1 a2 : string) :
  programs self !! k1 = Some p1 → programs self !! k2 = Some p2 →
  (n, a1) ∈ registers_used p1 → (n, a2) ∈ registers_used p2 →
  a1 ≠ "" → a2 ≠ "" →
  ∃ aliases : gset string,
    register_map (_build_register_map self) !! n = Some aliases
    ∧ a1 ∈ aliases ∧ a2 ∈ aliases.
Proof.
  intros Hk1 Hk2 H1 H2 Ha1 Ha2. simpl.
  assert (M1 : a1 ∈ aliases_of
                 (build_alias_table registers_used (programs self) (register_map self)) n).
  { apply build_alias_table_spec. right. by exists k1, p1. }
  assert (M2 : a2 ∈ aliases_of
                 (build_alias_table registers_used (programs self) (register_map self)) n).
  { apply build_alias_table_spec. right. by exists k2, p2. }
  unfold aliases_of in M1, M2.
  destruct (build_alias_table _ _ _ !! n) as [aliases|].
  - by exists aliases.
  - by apply not_elem_of_empty in M1.
Qed.

Lemma C6_witness :
  ∃ aliases : gset string,
    register_map (_build_register_map Inputs.two_programs) !! 12%N = Some aliases
    ∧ "SpeedRef" ∈ aliases ∧ "SpeedAlt" ∈ aliases.
Proof.
  apply (C6_register_aliases_all_retained Inputs.two_programs "PROG_A" "PROG_B"
           (parse_file ∅ "PROG_A.LS" Inputs.speed_ref_file)
           (parse_file ∅ "PROG_B.LS" Inputs.speed_alt_file)).
  - vm_compute. reflexivity.
  - vm_compute. reflexivity.
  - vm_compute. reflexivity.
  - vm_compute. reflexivity.
  - discriminate.
  - discriminate.
Defined.

(** ** Redefinition of a label (C7) *)









(** ** The call tree (C3) *)

Lemma extends_refl st : extends st st.
Proof.
  exists []. rewrite app_nil_r. repeat split.
  - set_solver.
  - constructor.
  - intros x Hx. by apply elem_of_nil in Hx.
Qed.

Lemma extends_trans st1 st2 st3 : extends st1 st2 → extends st2 st3 → extends st1 st3.
Proof.
  intros (new1 & Ha1 & Hv1 & Hd1 & Hn1) (new2 & Ha2 & Hv2 & Hd2 & Hn2).
  exists (new1 ++ new2). repeat split.
  - by rewrite Ha2, Ha1, app_assoc.
  - rewrite Hv2, Hv1, list_to_set_app_L. set_solver.
  - apply NoDup_app. repeat split; [done| |done].
    intros x Hx1 Hx2. apply (Hn2 x Hx2). rewrite Hv1. set_solver.
  - intros x Hx. apply elem_of_app in Hx as [Hx|Hx]; [by apply Hn1|].
    intros Hin. apply (Hn2 x Hx). rewrite Hv1. set_solver.
Qed.

Lemma extends_visit x st : x ∉ visited st → extends st (visit x st).
Proof.
  intros Hx. exists [x]. simpl. repeat split.
  - set_solver.
  - apply NoDup_singleton.
  - intros y Hy. apply list_elem_of_singleton in Hy. by subst.
Qed.

Lemma extends_write_entry indent called st : extends st (write_entry indent called st).
Proof.
  exists []. simpl. rewrite app_nil_r. repeat split.
  - set_solver.
  - constructor.
  - intros x Hx. by apply elem_of_nil in Hx.
Qed.

Lemma extends_size (U : gset string) st st' :
  extends st st' → size (U ∖ visited st') ≤ size (U ∖ visited st).
Proof.
  intros (new & _ & Hv & _). apply subseteq_size. rewrite Hv. set_solver.
Qed.

Lemma visit_size (U : gset string) x st :
  x ∈ U → x ∉ visited st → size (U ∖ visited (visit x st)) < size (U ∖ visited st).
Proof.
  intros HU Hx. apply subset_size. simpl. apply strict_spec_alt. split.
  - set_solver.
  - intros Heq. assert (x ∈ U ∖ visited st) as Hin by set_solver.
    rewrite <- Heq in Hin. set_solver.
Qed.

Lemma sorted_set_elem x l : x ∈ sorted_set l → x ∈ l.
Proof.
  unfold sorted_set, sorted. rewrite merge_sort_Permutation. apply elem_of_remove_dups.
Qed.

Lemma names_root graph root : root ∈ names graph root.
Proof. unfold names. set_solver. Qed.

Lemma names_callee graph root k callees c :
  graph !! k = Some callees → c ∈ callees → c ∈ names graph root.
Proof.
  intros Hk Hc. unfold names. apply elem_of_union_r. revert k callees Hk Hc.
  apply (map_fold_weak_ind
           (fun (r : gset string) (m : gmap string (list string)) =>
              ∀ k callees, m !! k = Some callees → c ∈ callees → c ∈ r)).
  - intros k callees H. by rewrite lookup_empty in H.
  - intros i x m r Hi IH k callees Hk Hc.
    destruct (decide (i = k)) as [->|Hne].
    + rewrite lookup_insert_eq in Hk. injection Hk as ->.
      apply elem_of_union_l. by apply elem_of_list_to_set.
    + rewrite lookup_insert_ne in Hk by done.
      apply elem_of_union_r. by eapply IH.
Qed.

(** A call on a name that is already visited returns at once. *)
Lemma write_call_tree_visited depth graph prog indent st :
  prog ∈ visited st → _write_call_tree (S depth) graph prog indent st = Some st.
Proof. intros H. simpl. by rewrite bool_decide_eq_true_2. Qed.

Section Traversal.
Variable graph : gmap string (list string).
Variable U : gset string.
Hypothesis closed : ∀ k callees c, graph !! k = Some callees → c ∈ callees → c ∈ U.

Lemma for_each_returns depth (l : list string) indent :
  (∀ prog indent st, prog ∈ U → size (U ∖ visited st) < depth →
     ∃ st', _write_call_tree depth graph prog indent st = Some st' ∧ extends st st') →
  ∀ st, (∀ c, c ∈ l → c ∈ U) → size (U ∖ visited st) < depth →
  ∃ st',
    for_each (fun called st =>
                _write_call_tree depth graph called (S indent)
                                 (write_entry indent called st)) l st = Some st'
    ∧ extends st st'.
Proof.
  intros IH. induction l as [|c l IHl]; intros st Hl Hsize; simpl.
  - exists st. split; [done|]. apply extends_refl.
  - destruct (IH c (S indent) (write_entry indent c st)) as (st1 & -> & He1).
    { apply Hl. by left. }
    { done. }
    assert (He : extends st st1).
    { eapply extends_trans; [apply extends_write_entry|exact He1]. }
    destruct (IHl st1) as (st2 & -> & He2).
    { intros c' Hc'. apply Hl. by right. }
    { eapply Nat.le_lt_trans; [by apply extends_size|done]. }
    exists st2. split; [done|]. by eapply extends_trans.
Qed.

Lemma write_call_tree_returns depth :
  ∀ prog indent st, prog ∈ U → size (U ∖ visited st) < depth →
  ∃ st', _write_call_tree depth graph prog indent st = Some st'
         ∧ extends st st' ∧ prog ∈ visited st'.
Proof.
  induction depth as [|depth IH]; intros prog indent st HU Hsize; [lia|].
  simpl. destruct (bool_decide (prog ∈ visited st)) eqn:Hv.
  - apply bool_decide_eq_true in Hv.
    exists st. split; [done|]. split; [apply extends_refl|done].
  - apply bool_decide_eq_false in Hv.
    pose proof (visit_size U prog st HU Hv) as Hlt.
    pose proof (extends_visit prog st Hv) as He.
    destruct (graph !! prog) as [callees|] eqn:Hg.
    + destruct (for_each_returns depth (sorted_set callees) indent) with (st := visit prog st)
        as (st' & -> & He').
      { intros p i s Hp Hs. destruct (IH p i s Hp Hs) as (s' & ? & ? & _). by exists s'. }
      { intros c Hc. apply sorted_set_elem in Hc. by eapply closed. }
      { lia. }
      exists st'. split; [done|]. split; [by eapply extends_trans|].
      destruct He' as (new & _ & -> & _). simpl. set_solver.
    + exists (visit prog st). split; [done|]. split; [done|]. simpl. set_solver.
Qed.
End Traversal.

(** C3: the call-tree rendering terminates on every call graph and from
    every root, cycles and self-calls included: a recursion depth of one
    more than the number of names is always enough.  In the traversal each
    name is passed to [visited.add] (that is, expanded) at most once, the
    visited set is exactly the set of expanded names, and a call on a name
    that is already visited returns without writing or expanding
    anything.  For two programs that call each other the rendering from
    either root expands each of them once. *)
Theorem C3_call_tree_terminates (graph : gmap string (list string)) (root : string)
    (extra : nat) :
  (∃ st, call_tree (S (size (names graph root)) + extra) graph root = Some st
         ∧ NoDup (added st)
         ∧ visited st = list_to_set (added st)
         ∧ root ∈ visited st)
  ∧ (∀ depth prog indent st,
       prog ∈ visited st → _write_call_tree (S depth) graph prog indent st = Some st)
  ∧ added <$> call_tree 3 mutual_calls "A" = Some ["A"; "B"]
  ∧ added <$> call_tree 3 mutual_calls "B" = Some ["B"; "A"]
  ∧ written <$> call_tree 3 mutual_calls "A"
    = Some (written (write_entry 2 "A" (write_entry 1 "B" fresh_tree))).
Proof.
  split; [|split; [|by vm_compute]].
  - destruct (write_call_tree_returns graph (names graph root)
                (names_callee graph root)
                (S (size (names graph root)) + extra) root 1 fresh_tree)
      as (st & Hst & (new & Ha & Hv & Hd & _) & Hroot).
    { apply names_root. }
    { simpl. rewrite difference_empty_L. lia. }
    exists st. simpl in Ha, Hv. subst new.
    repeat split; try done. rewrite Hv. set_solver.
  - intros. by apply write_call_tree_visited.
Qed.

(** * Further properties of the per-program parse *)

(** ** Stripping *)

Lemma lstrip_head s :
  lstrip s = "" ∨ ∃ c s', lstrip s = String c s' ∧ is_space c = false.
Proof.
  induction s as [|c s IH]; simpl; [by left|].
  destruct (is_space c) eqn:Hc; [done|]. right. by exists c, s.
Qed.

Lemma rstrip_idempotent s : rstrip (rstrip s) = rstrip s.
Proof.
  induction s as [|c s IH]; simpl; [done|].
  destruct (rstrip s) as [|c' r] eqn:Hr.
  - destruct (is_space c) eqn:Hc; simpl; [done|]. by rewrite Hc.
  - simpl in *. by rewrite IH.
Qed.

Lemma rstrip_head c s :
  is_space c = false → ∃ s', rstrip (String c s) = String c s'.
Proof.
  intros Hc. simpl. destruct (rstrip s); [rewrite Hc|]; by eexists.
Qed.

Lemma lstrip_strip s : lstrip (strip s) = strip s.
Proof.
  unfold strip. destruct (lstrip_head s) as [->|(c & s' & -> & Hc)]; [done|].
  destruct (rstrip_head c s' Hc) as [r ->]. simpl. by rewrite Hc.
Qed.

Lemma strip_idempotent s : strip (strip s) = strip s.
Proof.
  unfold strip at 1. rewrite lstrip_strip. unfold strip. apply rstrip_idempotent.
Qed.

(** ** What one line adds *)

Lemma parse_code_line_code_lines i raw p :
  code_lines (parse_code_line i raw p) = code_lines p ++ kept_lines [raw].
Proof.
  unfold parse_code_line, kept_lines. simpl.
  destruct (skipped (strip raw)); simpl; [by rewrite app_nil_r|].
  destruct (search label_re _); [destruct (in_error_window _)|];
    destruct (search jump_re _); destruct (search call_re _); done.
Qed.

Lemma parse_code_line_labels i raw p :
  labels (parse_code_line i raw p)
  = labels p ++ match labelled raw with
                | Some (n, nm) => [(n, nm, i)]
                | None => []
                end.
Proof.
  unfold parse_code_line, labelled.
  destruct (skipped (strip raw)); simpl; [by rewrite app_nil_r|].
  destruct (search label_re _); simpl; [destruct (in_error_window _)|];
    destruct (search jump_re _); destruct (search call_re _); simpl;
    by rewrite ?app_nil_r.
Qed.

Lemma parse_code_line_jumps i raw p :
  ∃ new, jumps (parse_code_line i raw p) = jumps p ++ new
         ∧ length new ≤ length (kept_lines [raw]) ∧ Forall (fun j => j.2 = i) new.
Proof.
  unfold parse_code_line, kept_lines. simpl.
  destruct (skipped (strip raw)); simpl.
  { exists []. by rewrite app_nil_r. }
  destruct (search label_re _); [destruct (in_error_window _)|];
    destruct (search jump_re _); destruct (search call_re _); simpl;
    (eexists [_] + exists []); rewrite ?app_nil_r; repeat split; simpl;
    try done; try lia; by repeat constructor.
Qed.

Lemma parse_code_line_calls i raw p :
  ∃ new, calls (parse_code_line i raw p) = calls p ++ new
         ∧ length new ≤ length (kept_lines [raw]) ∧ Forall (fun c => c.2 = i) new.
Proof.
  unfold parse_code_line, kept_lines. simpl.
  destruct (skipped (strip raw)); simpl.
  { exists []. by rewrite app_nil_r. }
  destruct (search label_re _); [destruct (in_error_window _)|];
    destruct (search jump_re _); destruct (search call_re _); simpl;
    (eexists [_] + exists []); rewrite ?app_nil_r; repeat split; simpl;
    try done; try lia; by repeat constructor.
Qed.

(** ** The loop over the lines of a region *)

Lemma kept_lines_cons raw lines : kept_lines (raw :: lines) = kept_lines [raw] ++ kept_lines lines.
Proof. unfold kept_lines. simpl. by destruct (negb _). Qed.

Lemma kept_lines_labelled raw : is_Some (labelled raw) → length (kept_lines [raw]) = 1.
Proof.
  unfold labelled, kept_lines. simpl. destruct (skipped _); simpl; [|done].
  by intros [? ?].
Qed.

Lemma parse_code_lines_code_lines i lines p :
  code_lines (parse_code_lines i lines p) = code_lines p ++ kept_lines lines.
Proof.
  revert i p. induction lines as [|raw lines IH]; intros i p; simpl.
  - by rewrite app_nil_r.
  - rewrite IH, parse_code_line_code_lines, (kept_lines_cons raw lines).
    by rewrite app_assoc.
Qed.

Lemma parse_code_lines_labels i lines p n nm j :
  (n, nm, j) ∈ labels (parse_code_lines i lines p)
  ↔ (n, nm, j) ∈ labels p
    ∨ ∃ raw, i ≤ j ∧ lines !! (j - i) = Some raw ∧ labelled raw = Some (n, nm).
Proof.
  revert i p. induction lines as [|raw lines IH]; intros i p; simpl.
  - split; [by left|]. intros [H|(raw & _ & H & _)]; done.
  - rewrite IH, parse_code_line_labels, elem_of_app. split.
    + intros [[H|H]|(raw' & Hle & Hl & Hlab)].
      * by left.
      * right. exists raw. destruct (labelled raw) as [[n' nm']|]; [|by apply elem_of_nil in H].
        apply list_elem_of_singleton in H. injection H as -> -> ->.
        by rewrite Nat.sub_diag.
      * right. exists raw'. split; [lia|]. split; [|done].
        replace (j - i) with (S (j - S i)) by lia. done.
    + intros [H|(raw' & Hle & Hl & Hlab)]; [by left; left|].
      destruct (decide (j = i)) as [->|Hne].
      * rewrite Nat.sub_diag in Hl. simpl in Hl. injection Hl as ->.
        left. right. rewrite Hlab. by apply list_elem_of_singleton.
      * right. exists raw'. split; [lia|]. split; [|done].
        replace (j - i) with (S (j - S i)) in Hl by lia. done.
Qed.

Lemma increasing_below_mono i j l : increasing_below i l → i ≤ j → increasing_below j l.
Proof.
  intros [Hs Hb] Hle. split; [done|]. eapply Forall_impl; [exact Hb|].
  simpl. intros. lia.
Qed.

Lemma increasing_below_app i l new :
  increasing_below i l → Forall (fun j => j = i) new → length new ≤ 1 →
  increasing_below (S i) (l ++ new).
Proof.
  intros [Hs Hb] Hnew Hlen. destruct new as [|x [|y new]]; simpl in Hlen; [| |lia].
  - rewrite app_nil_r. apply (increasing_below_mono i); [done|lia].
  - apply Forall_singleton in Hnew as ->. split.
    + apply StronglySorted_app_2; [|done|repeat constructor].
      intros x1 x2 H1 H2. apply list_elem_of_singleton in H2 as ->.
      by apply (proj1 (Forall_forall _ _) Hb).
    + apply Forall_app. split; [|repeat constructor].
      eapply Forall_impl; [exact Hb|]. simpl. intros. lia.
Qed.

Lemma kept_lines_one raw : length (kept_lines [raw]) ≤ 1.
Proof. unfold kept_lines. simpl. destruct (negb _); simpl; lia. Qed.

(** The part of the invariant of the loop that concerns counts and line
    numbers, before line number [i]. *)
Lemma parse_code_line_counts i raw p :
  (length (labels p) ≤ length (code_lines p)
   ∧ length (jumps p) ≤ length (code_lines p)
   ∧ length (calls p) ≤ length (code_lines p)
   ∧ increasing_below i (line_numbers (labels p))
   ∧ increasing_below i (line_numbers (jumps p))
   ∧ increasing_below i (line_numbers (calls p))) →
  let q := parse_code_line i raw p in
  length (labels q) ≤ length (code_lines q)
  ∧ length (jumps q) ≤ length (code_lines q)
  ∧ length (calls q) ≤ length (code_lines q)
  ∧ increasing_below (S i) (line_numbers (labels q))
  ∧ increasing_below (S i) (line_numbers (jumps q))
  ∧ increasing_below (S i) (line_numbers (calls q)).
Proof.
  intros (Hl & Hj & Hc & Il & Ij & Ic) q. subst q.
  rewrite parse_code_line_code_lines, parse_code_line_labels.
  destruct (parse_code_line_jumps i raw p) as (nj & -> & Lj & Fj).
  destruct (parse_code_line_calls i raw p) as (nc & -> & Lc & Fc).
  pose proof (kept_lines_one raw) as Hone.
  unfold line_numbers in *. rewrite !fmap_app, !length_app.
  assert (Hlab : length (match labelled raw with
                         | Some (n, nm) => [(n, nm, i)]
                         | None => []
                         end) ≤ length (kept_lines [raw])
                 ∧ Forall (fun j => j = i)
                     (snd <$> match labelled raw with
                              | Some (n, nm) => [(n, nm, i)]
                              | None => []
                              end)).
  { destruct (labelled raw) as [[n nm]|] eqn:E; simpl.
    - rewrite kept_lines_labelled by (by rewrite E). split; [lia|by repeat constructor].
    - split; [lia|constructor]. }
  destruct Hlab as [Ll Fl].
  do 3 (split; [lia|]). split; [|split].
  - apply increasing_below_app; [done..|]. rewrite length_fmap. lia.
  - apply increasing_below_app; [done| |rewrite length_fmap; lia].
    apply Forall_fmap. eapply Forall_impl; [exact Fj|]. done.
  - apply increasing_below_app; [done| |rewrite length_fmap; lia].
    apply Forall_fmap. eapply Forall_impl; [exact Fc|]. done.
Qed.

Lemma parse_code_lines_counts i lines p :
  (length (labels p) ≤ length (code_lines p)
   ∧ length (jumps p) ≤ length (code_lines p)
   ∧ length (calls p) ≤ length (code_lines p)
   ∧ increasing_below i (line_numbers (labels p))
   ∧ increasing_below i (line_numbers (jumps p))
   ∧ increasing_below i (line_numbers (calls p))) →
  let q := parse_code_lines i lines p in
  length (labels q) ≤ length (code_lines q)
  ∧ length (jumps q) ≤ length (code_lines q)
  ∧ length (calls q) ≤ length (code_lines q)
  ∧ increasing_below (i + length lines) (line_numbers (labels q))
  ∧ increasing_below (i + length lines) (line_numbers (jumps q))
  ∧ increasing_below (i + length lines) (line_numbers (calls q)).
Proof.
  revert i p. induction lines as [|raw lines IH]; intros i p H; simpl.
  - by rewrite Nat.add_0_r.
  - replace (i + S (length lines)) with (S i + length lines) by lia.
    apply IH. by apply parse_code_line_counts.
Qed.

(** The fields of the result of [parse_file] that come from the main
    code are those of [_parse_code] on a new program. *)
Lemma parse_file_code_fields programs filepath bytes :
  let p := parse_file programs filepath bytes in
  let q := _parse_code (new_program "") (read bytes) in
  code_lines p = code_lines q ∧ labels p = labels q ∧ errors p = errors q
  ∧ jumps p = jumps q ∧ calls p = calls q
  ∧ position_registers p = position_registers q.
Proof.
  intros p q.
  destruct (parse_file_by_region programs filepath bytes) as (_ & Hc & _).
  fold p q in Hc. unfold code_part in Hc.
  injection Hc as H1 H2 H3 H4 H5 _ _ _ _ _ H6. done.
Qed.

Lemma parse_code_from_new content :
  let lines := from_option split_lines [] (mn_section content) in
  _parse_code (new_program "") content = parse_code_lines 0 lines (new_program "").
Proof. unfold _parse_code. by destruct (mn_section content). Qed.

Lemma omap_length_le {A B} (f : A → option B) (l : list A) : length (omap f l) ≤ length l.
Proof.
  induction l as [|x l IH]; [done|].
  change (omap f (x :: l)) with (match f x with
                                 | Some y => y :: omap f l
                                 | None => omap f l
                                 end).
  destruct (f x); simpl; lia.
Qed.

Lemma append_new_NoDup xs (l : list (N * string)) : NoDup l → NoDup (append_new xs l).
Proof.
  unfold append_new. revert l. induction xs as [|x xs IH]; intros l Hl; simpl; [done|].
  apply IH. unfold in_pairs. case_bool_decide as Hx; [done|].
  apply NoDup_app. split; [done|]. split; [|apply NoDup_singleton].
  intros y Hy Hy'. apply list_elem_of_singleton in Hy'. by subst.
Qed.

Lemma parse_code_line_position_registers i raw p :
  NoDup (position_registers p) → NoDup (position_registers (parse_code_line i raw p)).
Proof.
  intros H. unfold parse_code_line. destruct (skipped _); [done|].
  simpl. apply append_new_NoDup.
  destruct (search label_re _); [destruct (in_error_window _)|];
    destruct (search jump_re _); destruct (search call_re _); done.
Qed.

Lemma parse_code_lines_position_registers i lines p :
  NoDup (position_registers p) → NoDup (position_registers (parse_code_lines i lines p)).
Proof.
  revert i p. induction lines as [|raw lines IH]; intros i p H; [done|].
  simpl. apply IH. by apply parse_code_line_position_registers.
Qed.

(** ** Counts, line numbers and code lines of a parsed program *)

(** The counts of a parsed program are ordered: there are at most as many
    error labels as labels, and at most as many labels, jumps and calls as
    code lines, since a line yields at most one of each. *)
Theorem parse_counts_bounded programs filepath bytes :
  let p := parse_file programs filepath bytes in
  length (errors p) ≤ length (labels p)
  ∧ length (labels p) ≤ length (code_lines p)
  ∧ length (jumps p) ≤ length (code_lines p)
  ∧ length (calls p) ≤ length (code_lines p).
Proof.
  intros p.
  destruct (parse_file_code_fields programs filepath bytes)
    as (Hc & Hl & He & Hj & Hca & _).
  fold p in Hc, Hl, He, Hj, Hca.
  pose proof (parse_file_errors programs filepath bytes) as Herr.
  fold p in Herr. unfold errors_follow_labels in Herr.
  split.
  { rewrite Herr. unfold error_labels_of. apply omap_length_le. }
  rewrite Hc, Hl, Hj, Hca, parse_code_from_new.
  destruct (parse_code_lines_counts 0
              (from_option split_lines [] (mn_section (read bytes))) (new_program ""))
    as (H1 & H2 & H3 & _).
  { simpl. repeat split; (lia || constructor). }
  done.
Qed.

(** The line numbers recorded with the labels, the jumps and the calls of
    a parsed program are strictly increasing and are line numbers of the
    main-code region. *)
Theorem parse_line_numbers_increasing programs filepath bytes :
  let p := parse_file programs filepath bytes in
  let lines := from_option split_lines [] (mn_section (read bytes)) in
  increasing_below (length lines) (line_numbers (labels p))
  ∧ increasing_below (length lines) (line_numbers (jumps p))
  ∧ increasing_below (length lines) (line_numbers (calls p)).
Proof.
  intros p lines.
  destruct (parse_file_code_fields programs filepath bytes)
    as (_ & Hl & _ & Hj & Hca & _).
  fold p in Hl, Hj, Hca. rewrite Hl, Hj, Hca, parse_code_from_new. fold lines.
  destruct (parse_code_lines_counts 0 lines (new_program ""))
    as (_ & _ & _ & H1 & H2 & H3).
  { simpl. repeat split; (lia || constructor). }
  done.
Qed.

(** The code lines of a parsed program are the stripped lines of the
    main-code region that are neither empty nor comments, in their order;
    each of them is its own stripped form. *)
Theorem parse_code_lines_kept programs filepath bytes :
  let p := parse_file programs filepath bytes in
  let lines := from_option split_lines [] (mn_section (read bytes)) in
  code_lines p = kept_lines lines
  ∧ Forall (fun line => strip line = line ∧ line ≠ "" ∧ startswith "!" line = false)
           (code_lines p).
Proof.
  intros p lines.
  destruct (parse_file_code_fields programs filepath bytes) as (Hc & _).
  fold p in Hc.
  assert (H : code_lines p = kept_lines lines).
  { rewrite Hc, parse_code_from_new. fold lines.
    by rewrite parse_code_lines_code_lines. }
  split; [exact H|]. rewrite H. apply Forall_forall. intros line Hin.
  unfold kept_lines in Hin.
  apply list_elem_of_In, List.filter_In in Hin as [Hin Hs].
  apply list_elem_of_In, list_elem_of_fmap in Hin as (raw & -> & _).
  split; [apply strip_idempotent|].
  apply negb_true_iff in Hs. unfold skipped in Hs.
  apply orb_false_iff in Hs as [Hs1 Hs2]. split; [|done].
  intros Heq. rewrite Heq in Hs1. done.
Qed.

(** A label is recorded for line [i] of the main-code region exactly when
    that line is not skipped and carries the label pattern; the entry holds
    the id and alias of the first marker of the line. *)
Theorem parse_labels_are_labelled_lines programs filepath bytes (n : N) (nm : string)
    (i : nat) :
  let p := parse_file programs filepath bytes in
  let lines := from_option split_lines [] (mn_section (read bytes)) in
  (n, nm, i) ∈ labels p ↔ ∃ raw, lines !! i = Some raw ∧ labelled raw = Some (n, nm).
Proof.
  intros p lines.
  destruct (parse_file_code_fields programs filepath bytes) as (_ & Hl & _).
  fold p in Hl. rewrite Hl, parse_code_from_new. fold lines.
  rewrite parse_code_lines_labels. simpl. rewrite Nat.sub_0_r. split.
  - intros [H|(raw & _ & H)]; [by apply elem_of_nil in H|by exists raw].
  - intros (raw & H). right. exists raw. split; [lia|done].
Qed.

(** The position registers of a parsed program are recorded without
    repetition. *)
Theorem parse_position_registers_distinct programs filepath bytes :
  NoDup (position_registers (parse_file programs filepath bytes)).
Proof.
  destruct (parse_file_code_fields programs filepath bytes) as (_ & _ & _ & _ & _ & ->).
  rewrite parse_code_from_new. apply parse_code_lines_position_registers.
  simpl. constructor.
Qed.

(** ** What a group captures *)

Lemma run_Seq a b prev s cs k :
  run (Seq a b) prev s cs k = run a prev s cs (fun prev' s' cs' => run b prev' s' cs' k).
Proof. reflexivity. Qed.

Lemma run_Grp i a prev s cs k :
  run (Grp i a) prev s cs k
  = run a prev s cs (fun prev' s' cs' => k prev' s' ((i, consumed s s') :: cs')).
Proof. reflexivity. Qed.

Lemma search_from_run r prev s m :
  search_from r prev s = Some m → ∃ prev' s', run r prev' s' [] finish = Some m.
Proof.
  revert prev. induction s as [|c s IH]; intros prev; simpl.
  - destruct (run r prev "" [] finish) eqn:H; [|done]. intros [= <-]. eauto.
  - destruct (run r prev (String c s) [] finish) eqn:H.
    + intros [= <-]. eauto.
    + apply IH.
Qed.

Lemma substring_0_0 s : String.substring 0 0 s = "".
Proof. by destruct s. Qed.

Lemma append_nil s : "" +:+ s = s.
Proof. reflexivity. Qed.

Lemma append_cons c pre s : String c pre +:+ s = String c (pre +:+ s).
Proof. reflexivity. Qed.

Lemma length_append_ge pre s : String.length s ≤ String.length (pre +:+ s).
Proof.
  induction pre as [|c pre IH]; [by rewrite append_nil|].
  rewrite append_cons. simpl. lia.
Qed.

Lemma consumed_app pre s : consumed (pre +:+ s) s = pre.
Proof.
  unfold consumed. induction pre as [|c pre IH].
  - rewrite append_nil, Nat.sub_diag. apply substring_0_0.
  - rewrite append_cons. pose proof (length_append_ge pre s) as Hle.
    cbn [String.length].
    replace (S (String.length (pre +:+ s)) - String.length s)
      with (S (String.length (pre +:+ s) - String.length s)) by lia.
    cbn [String.substring]. by rewrite IH.
Qed.

Lemma rep_greedy_prefix p least prev s k m :
  rep_greedy p least prev s k = Some m →
  ∃ pre prev' s',
    s = pre +:+ s' ∧ Forall (fun c => p c = true) (chars pre)
    ∧ least ≤ String.length pre ∧ k prev' s' = Some m.
Proof.
  revert least prev. induction s as [|c s IH]; intros least prev; simpl.
  - destruct least; [|done]. intros H. exists "", prev, "". by repeat split.
  - assert (Hstop : match least with O => k prev (String c s) | S _ => None end = Some m →
                    ∃ pre prev' s',
                      String c s = pre +:+ s' ∧ Forall (fun c => p c = true) (chars pre)
                      ∧ least ≤ String.length pre ∧ k prev' s' = Some m).
    { destruct least; [|done]. intros H. exists "", prev, (String c s). by repeat split. }
    destruct (p c) eqn:Hc; [|done].
    destruct (rep_greedy p (Nat.pred least) (Some c) s k) eqn:Hrec; [|done].
    intros [= <-]. destruct (IH _ _ Hrec) as (pre & prev' & s' & -> & Hall & Hlen & Hk).
    exists (String c pre), prev', s'. rewrite append_cons. simpl.
    repeat split; [by constructor|lia|done].
Qed.

Lemma run_Lit_inv l prev s cs k m :
  run (Lit l) prev s cs k = Some m →
  ∃ prev' s', s = l +:+ s' ∧ k prev' s' cs = Some m.
Proof.
  revert prev s. induction l as [|c l IH]; intros prev s; simpl.
  - intros H. by exists prev, s.
  - destruct s as [|c' s]; [done|].
    destruct (is_char c c') eqn:Hc; [|done]. apply is_char_true in Hc as ->.
    intros H. destruct (IH _ _ H) as (prev' & s' & -> & Hk). by exists prev', s'.
Qed.

(** ** The program name *)

Lemma header_match content m :
  search header_re content = Some m →
  ∃ w, group 1 m = Some w ∧ w ≠ "" ∧ Forall (fun c => is_word c = true) (chars w).
Proof.
  intros H. apply search_from_run in H as (prev & s & H).
  unfold header_re in H. cbn [Cat] in H. rewrite run_Seq in H.
  apply run_continues in H as (prev1 & s1 & cs1 & H & _). rewrite run_Seq in H.
  apply run_continues in H as (prev2 & s2 & cs2 & H & _). rewrite run_Grp in H.
  unfold Plus in H. cbn [run] in H.
  apply rep_greedy_prefix in H as (pre & prev3 & s3 & -> & Hall & Hlen & H).
  injection H as <-. exists pre. unfold group. simpl.
  rewrite consumed_app. split; [done|]. split; [|done].
  intros ->. simpl in Hlen. lia.
Qed.

Lemma classify_name p : name (classify_program p) = name p.
Proof.
  unfold classify_program.
  destruct (matched _).
  { simpl. by destruct (existsb _ _). }
  destruct (existsb _ _).
  { by destruct (search _ _). }
  destruct (in_list _ _); [done|]. by destruct (_ || _).
Qed.

Lemma parse_file_name programs filepath bytes :
  name (parse_file programs filepath bytes)
  = name (_parse_header (new_program (basename filepath)) (read bytes)).
Proof.
  unfold parse_file. simpl. rewrite classify_name.
  rewrite (proj2 (proj2 (positions_frame _ _))).
  rewrite (proj2 (proj2 (code_frame _ _))).
  by rewrite (proj2 (proj2 (attributes_frame _ _))).
Qed.

(** The name of a parsed program is made of word characters only, and it
    is empty exactly when the text has no program header (in particular
    when it does not contain [/PROG]). *)
Theorem parse_name_is_a_word programs filepath bytes :
  let p := parse_file programs filepath bytes in
  Forall (fun c => is_word c = true) (chars (name p))
  ∧ (name p = "" ↔ search header_re (read bytes) = None)
  ∧ (contains "/PROG" (read bytes) = false → name p = "").
Proof.
  intros p. subst p. rewrite parse_file_name. unfold _parse_header.
  assert (Hno : contains "/PROG" (read bytes) = false → search header_re (read bytes) = None).
  { apply (search_needs_literal "/PROG"). }
  destruct (search header_re (read bytes)) as [m|] eqn:Hm.
  - destruct (header_match _ _ Hm) as (w & Hg & Hne & Hall).
    unfold group_or_empty. rewrite Hg. simpl.
    split; [done|]. split; [by split|]. intros H. by apply Hno in H.
  - simpl. split; [constructor|]. by split.
Qed.

(** ** Attribute keys *)

Lemma parse_attribute_keys t p (e : string * regex) :
  dom (attributes (parse_attribute t p e)) ⊆ dom (attributes p) ∪ {[e.1]}.
Proof.
  destruct e as [key pattern]. unfold parse_attribute.
  destruct (search _ _); [|set_solver].
  destruct (in_list _ _); simpl; rewrite dom_insert; set_solver.
Qed.

Lemma parse_attributes_keys t (l : list (string * regex)) p :
  dom (attributes (fold_left (parse_attribute t) l p))
  ⊆ dom (attributes p) ∪ list_to_set (fst <$> l).
Proof.
  revert p. induction l as [|e l IH]; intros p; simpl; [set_solver|].
  etrans; [apply IH|]. pose proof (parse_attribute_keys t p e). set_solver.
Qed.

(** The attributes of a parsed program are stored under the eight known
    keys only. *)
Theorem parse_attribute_keys_known programs filepath bytes :
  dom (attributes (parse_file programs filepath bytes)) ⊆ list_to_set attribute_keys.
Proof.
  destruct (parse_file_by_region programs filepath bytes) as (-> & _).
  unfold _parse_attributes. destruct (search _ _); [|set_solver].
  etrans; [apply parse_attributes_keys|]. unfold attribute_keys.
  change (attributes (new_program "")) with (∅ : gmap string string).
  rewrite dom_empty_L. set_solver.
Qed.

(** ** The flags set by the classification *)

Lemma header_flags p c :
  has_iml (_parse_header p c) = has_iml p
  ∧ product_code (_parse_header p c) = product_code p.
Proof. unfold _parse_header. by destruct (search _ _). Qed.

Lemma attributes_flags p c :
  has_iml (_parse_attributes p c) = has_iml p
  ∧ product_code (_parse_attributes p c) = product_code p.
Proof.
  unfold _parse_attributes. destruct (search _ _); [|done].
  apply (fold_left_invariant
           (fun q => has_iml q = has_iml p ∧ product_code q = product_code p)); [done|].
  intros q [key pattern] [H1 H2]. unfold parse_attribute.
  destruct (search _ _); [|done]. by destruct (in_list _ _).
Qed.

Lemma code_line_flags i raw p :
  has_iml (parse_code_line i raw p) = has_iml p
  ∧ product_code (parse_code_line i raw p) = product_code p.
Proof.
  unfold parse_code_line. destruct (skipped _); [done|].
  destruct (search label_re _); [destruct (in_error_window _)|];
    destruct (search jump_re _); destruct (search call_re _); done.
Qed.

Lemma code_flags p c :
  has_iml (_parse_code p c) = has_iml p
  ∧ product_code (_parse_code p c) = product_code p.
Proof.
  unfold _parse_code. destruct (mn_section c) as [t|]; [|done].
  generalize 0. revert p.
  induction (split_lines t) as [|raw lines IH]; intros p i; [done|]. simpl.
  destruct (IH (parse_code_line i raw p) (S i)) as [-> ->].
  apply code_line_flags.
Qed.

Lemma positions_flags p c :
  has_iml (_parse_positions p c) = has_iml p
  ∧ product_code (_parse_positions p c) = product_code p.
Proof.
  unfold _parse_positions. destruct (search _ _); [|done].
  by apply (fold_left_invariant
              (fun q => has_iml q = has_iml p ∧ product_code q = product_code p)).
Qed.

Lemma product_code_match name m :
  search product_code_re name = Some m →
  ∃ c, group 1 m = Some c ∧ c ∈ product_codes.
Proof.
  intros H. apply search_from_run in H as (prev & s & H).
  unfold product_code_re in H. cbn [Cat] in H. rewrite run_Seq in H.
  apply run_continues in H as (prev1 & s1 & cs1 & H & _). rewrite run_Grp in H.
  cbn [AltOf] in H. unfold product_codes. cbn [run] in H.
  repeat match type of H with
         | match ?r with _ => _ end = Some _ =>
             let E := fresh "E" in
             destruct r eqn:E;
             [injection H as ->;
              apply run_Lit_inv in E as (prev2 & s2 & -> & [= <-]);
              eexists; unfold group; simpl; rewrite consumed_app;
              split; [reflexivity|]; rewrite !elem_of_cons; auto 10
             |]
         end.
  apply run_Lit_inv in H as (prev2 & s2 & -> & [= <-]).
  eexists. unfold group. simpl. rewrite consumed_app.
  split; [reflexivity|]. rewrite !elem_of_cons. auto 10.
Qed.

(** What the classification leaves on a parsed program: the IML flag is
    only raised on main programs, and a product code is only stored on
    subprograms, where it is one of the seven known codes. *)
Theorem parse_classification_flags programs filepath bytes :
  let p := parse_file programs filepath bytes in
  (has_iml p = true → program_type p = main)
  ∧ (∀ c, product_code p = Some c → program_type p = subprogram ∧ c ∈ product_codes).
Proof.
  intros p. subst p. unfold parse_file.
  set (q := _parse_positions _ _).
  assert (Hq : has_iml q = false ∧ product_code q = None).
  { subst q.
    destruct (positions_flags
                (_parse_code (_parse_attributes
                   (_parse_header (new_program (basename filepath)) (read bytes))
                   (read bytes)) (read bytes)) (read bytes)) as [-> ->].
    destruct (code_flags
                (_parse_attributes
                   (_parse_header (new_program (basename filepath)) (read bytes))
                   (read bytes)) (read bytes)) as [-> ->].
    destruct (attributes_flags
                (_parse_header (new_program (basename filepath)) (read bytes))
                (read bytes)) as [-> ->].
    by destruct (header_flags (new_program (basename filepath)) (read bytes)) as [-> ->]. }
  destruct Hq as [Hi Hp]. clearbody q. simpl.
  unfold classify_program.
  destruct (matched _).
  { simpl. destruct (existsb _ _); simpl; rewrite ?Hp; by split. }
  destruct (existsb _ _).
  { destruct (search product_code_re (name q)) as [m|] eqn:Hm; simpl.
    - split; [by rewrite Hi|]. intros c Hc. split; [done|].
      destruct (product_code_match _ _ Hm) as (c' & Hg & Hin). congruence.
    - rewrite Hi, Hp. by split. }
  destruct (in_list _ _); simpl; [rewrite Hi, Hp; by split|].
  destruct (_ || _); simpl; rewrite Hi, Hp; by split.
Qed.

(** * Further properties of the aggregation *)

(** ** The call graph *)

Lemma fold_append_call name (cs : list (string * nat)) (g : gmap string (list string)) k :
  fold_left (append_call name) cs g !! k
  = if decide (k = name)
    then match cs with
         | [] => g !! name
         | _ => Some (default [] (g !! name) ++ cs.*1)
         end
    else g !! k.
Proof.
  revert g. induction cs as [|c cs IH]; intros g; simpl.
  - by destruct (decide (k = name)) as [->|].
  - rewrite IH. destruct (decide (k = name)) as [->|Hne].
    + assert (Hg : append_call name g c !! name
                   = Some (default [] (g !! name) ++ [c.1])).
      { unfold append_call. apply lookup_insert_eq. }
      rewrite Hg. simpl. destruct cs as [|c' cs]; simpl; [done|].
      by rewrite <- app_assoc.
    + unfold append_call. by rewrite lookup_insert_ne.
Qed.

Lemma build_call_graph_lookup (programs : gmap string FANUCProgram) k :
  build_call_graph programs ∅ !! k
  = match programs !! k with
    | Some p => match calls p with [] => None | _ => Some ((calls p).*1) end
    | None => None
    end.
Proof.
  unfold build_call_graph. revert k.
  apply (map_fold_weak_ind
           (fun (r : gmap string (list string)) (m : gmap string FANUCProgram) =>
              ∀ k, r !! k = match m !! k with
                            | Some p => match calls p with
                                        | [] => None
                                        | _ => Some ((calls p).*1)
                                        end
                            | None => None
                            end)).
  - intros k. by rewrite !lookup_empty.
  - intros i x m r Hi IH k. rewrite fold_append_call.
    destruct (decide (k = i)) as [->|Hne].
    + rewrite lookup_insert_eq, IH, Hi. by destruct (calls x).
    + rewrite lookup_insert_ne by done. apply IH.
Qed.

(** After [analyze_all] on a new analyzer, the call graph has an entry
    exactly for the parsed programs that contain a call, and the entry of a
    program lists its callees in the order of the calls, repetitions
    included. *)
Theorem call_graph_lists_callees (files : list (string * string)) (k : string) :
  let self := analyze_all files new_analyzer in
  call_graph self !! k
  = match programs self !! k with
    | Some p => match calls p with [] => None | _ => Some ((calls p).*1) end
    | None => None
    end.
Proof. simpl. apply build_call_graph_lookup. Qed.

(** ** The IO tables *)

(** Each of the four IO tables built by [_build_io_map] holds, under an
    id, what it held before and every non-empty alias under which some
    program of the collection uses that id in the operand set of that
    kind; an operand without alias adds nothing. *)
Theorem io_map_collects_aliases (self : FANUCAnalyzer) (n : N) (a : string) :
  let built := io_map (_build_io_map self) in
  let seen (operands_of : FANUCProgram → gset (N * string)) :=
    ∃ k p, programs self !! k = Some p ∧ (n, a) ∈ operands_of p ∧ a ≠ "" in
  (a ∈ aliases_of (DI built) n ↔ a ∈ aliases_of (DI (io_map self)) n ∨ seen digital_inputs)
  ∧ (a ∈ aliases_of (DO built) n ↔ a ∈ aliases_of (DO (io_map self)) n ∨ seen digital_outputs)
  ∧ (a ∈ aliases_of (RI built) n ↔ a ∈ aliases_of (RI (io_map self)) n ∨ seen register_inputs)
  ∧ (a ∈ aliases_of (RO built) n ↔ a ∈ aliases_of (RO (io_map self)) n ∨ seen register_outputs).
Proof. simpl. repeat split; apply build_alias_table_spec. Qed.

(** ** Programs are keyed by name *)

Lemma parse_all_snoc files file programs :
  parse_all (files ++ [file]) programs
  = <[name (parse_file ∅ file.1 file.2) := parse_file ∅ file.1 file.2]>
      (parse_all files programs).
Proof. unfold parse_all. by rewrite fold_left_app. Qed.





(** Every program held after [parse_all] on an empty collection is stored
    under its own name and is the parse of one of the files. *)
Theorem programs_keyed_by_name (files : list (string * string)) (k : string)
    (p : FANUCProgram) :
  parse_all files ∅ !! k = Some p →
  name p = k ∧ ∃ f, f ∈ files ∧ p = parse_file ∅ f.1 f.2.
Proof.
  revert k p. induction files as [|file files IH] using rev_ind; intros k p.
  - intros H. change (parse_all [] ∅) with (∅ : gmap string FANUCProgram) in H.
    by rewrite lookup_empty in H.
  - rewrite parse_all_snoc.
    destruct (decide (name (parse_file ∅ file.1 file.2) = k)) as [<-|Hne].
    + rewrite lookup_insert_eq. intros [= <-]. split; [done|].
      exists file. split; [|done]. apply elem_of_app. right. by apply list_elem_of_singleton.
    + rewrite lookup_insert_ne by done. intros H.
      destruct (IH _ _ H) as (Hn & f & Hf & Hp). split; [done|].
      exists f. split; [|done]. apply elem_of_app. by left.
Qed.

Lemma programs_keyed_by_name_witness :
  name (parse_file ∅ "PROG_B.LS" Inputs.speed_alt_file) = "PROG_B".
Proof.
  apply (programs_keyed_by_name
           [("PROG_A.LS", Inputs.speed_ref_file); ("PROG_B.LS", Inputs.speed_alt_file)]
           "PROG_B" (parse_file ∅ "PROG_B.LS" Inputs.speed_alt_file)).
  vm_compute. reflexivity.
Defined.

(** ** What the call tree reaches *)

Lemma sorted_set_elem_iff x l : x ∈ sorted_set l ↔ x ∈ l.
Proof.
  unfold sorted_set, sorted. rewrite merge_sort_Permutation. apply elem_of_remove_dups.
Qed.

Section Reach.
Variable graph : gmap string (list string).

Lemma for_each_finished depth (l : list string) (prog : string) indent :
  (∀ called indent st st',
     _write_call_tree depth graph called indent st = Some st' →
     finished graph called st st') →
  (∀ c, c ∈ l → calls_to graph prog c) →
  ∀ st st',
    for_each (fun called st =>
                _write_call_tree depth graph called (S indent)
                                 (write_entry indent called st)) l st = Some st' →
    visited st ⊆ visited st' ∧ (∀ c, c ∈ l → c ∈ visited st')
    ∧ ∀ x, x ∈ visited st' → x ∉ visited st →
           rtc (calls_to graph) prog x ∧ ∀ y, calls_to graph x y → y ∈ visited st'.
Proof.
  intros IH. induction l as [|c l IHl]; intros Hl st st'; simpl.
  - intros [= <-]. split; [done|]. split; [by intros c Hc; apply elem_of_nil in Hc|].
    intros x Hx Hx'. done.
  - destruct (_write_call_tree depth graph c (S indent) (write_entry indent c st))
      as [st1|] eqn:H1; [|done].
    intros H2. apply IH in H1 as (Hsub1 & Hc1 & Hnew1). simpl in Hsub1, Hnew1.
    apply IHl in H2 as (Hsub2 & Hl2 & Hnew2).
    2:{ intros c' Hc'. apply Hl. by right. }
    split; [set_solver|]. split.
    + intros c' Hc'. apply elem_of_cons in Hc' as [->|Hc']; [set_solver|by apply Hl2].
    + intros x Hx Hx'. destruct (decide (x ∈ visited st1)) as [Hin|Hnin].
      * destruct (Hnew1 x Hin Hx') as [Hr Hcl]. split.
        -- eapply rtc_l; [apply Hl; by left|done].
        -- intros y Hy. apply Hsub2. by apply Hcl.
      * by apply Hnew2.
Qed.

Lemma write_call_tree_finished depth :
  ∀ prog indent st st',
    _write_call_tree depth graph prog indent st = Some st' → finished graph prog st st'.
Proof.
  induction depth as [|depth IH]; intros prog indent st st'; [done|].
  simpl. destruct (bool_decide (prog ∈ visited st)) eqn:Hv.
  - apply bool_decide_eq_true in Hv. intros [= <-]. split; [done|]. split; [done|].
    intros x Hx Hx'. done.
  - apply bool_decide_eq_false in Hv.
    destruct (graph !! prog) as [callees|] eqn:Hg.
    + intros H.
      apply (for_each_finished depth (sorted_set callees) prog indent IH) in H
        as (Hsub & Hall & Hnew).
      2:{ intros c Hc. exists callees. split; [done|]. by apply sorted_set_elem_iff. }
      simpl in Hsub, Hnew. split; [set_solver|]. split; [set_solver|].
      intros x Hx Hx'. destruct (decide (x = prog)) as [->|Hne].
      * split; [done|]. intros y (callees' & Hg' & Hy).
        rewrite Hg in Hg'. injection Hg' as <-. apply Hall. by apply sorted_set_elem_iff.
      * apply Hnew; [done|]. set_solver.
    + intros [= <-]. simpl. split; [set_solver|]. split; [set_solver|].
      intros x Hx Hx'. assert (x = prog) as -> by set_solver.
      split; [done|]. intros y (callees' & Hg' & _). by rewrite Hg in Hg'.
Qed.
End Reach.

(** The traversal from a root visits exactly the programs that can be
    reached from the root through calls of the call graph (the root
    itself included). *)
Theorem call_tree_visits_reachable (graph : gmap string (list string)) (root : string)
    (extra : nat) :
  ∃ st, call_tree (S (size (names graph root)) + extra) graph root = Some st
        ∧ ∀ x, x ∈ visited st ↔ rtc (calls_to graph) root x.
Proof.
  destruct (write_call_tree_returns graph (names graph root)
              (names_callee graph root)
              (S (size (names graph root)) + extra) root 1 fresh_tree)
    as (st & Hst & _ & _).
  { apply names_root. }
  { simpl. rewrite difference_empty_L. lia. }
  exists st. split; [exact Hst|].
  apply write_call_tree_finished in Hst as (_ & Hroot & Hnew). simpl in Hnew.
  intros x. split.
  - intros Hx. apply Hnew; [done|set_solver].
  - revert x. apply (rtc_ind_r (fun z => z ∈ visited st)); [exact Hroot|].
    intros y z _ Hyz IH.
    destruct (Hnew y IH) as [_ Hcl]; [set_solver|]. by apply Hcl.
Qed.
